(** * STRATCOM Global Command: region mapping and spatial lookup

    A shallow embedding of the two classes that carry the algorithmic
    content of the repository:

    - [MapManager] (public/js/core/MapManager.js): the region catalog, the
      uniform grid built by [buildSpatialIndex], the point locator
      [findStateAtCoords] with its [haversineDistance], the guarded
      mutators [setStateColor], [applyNationColors] and [updateStateData],
      the query [getState], and [highlightState] / [unhighlightState];
    - [SVGGlobeRenderer]: the catalog built by the path loop of [loadSVG],
      the ownership and selection state of the regions with the mutators
      [setRegionOwner], [setRegionsOwner] and [selectRegion], the queries
      [getRegion], [getAllRegionIds] and [getRegionsByOwner], the land
      colour derivation [adjustColorForLand], and the full redraw
      [renderToCanvas] as a trace of canvas calls.

    Reading of JavaScript numbers.  In [MapManager] a coordinate is an exact
    rational ([Q]): every finite double is one, the grid transform
    [Math.floor ((lon + 180) * (cellsX / 360))] is evaluated without
    rounding, and [NaN] and the infinities stay outside the model.  The
    great-circle distance needs [sin], [cos], [sqrt] and [atan2], so it is
    computed over the real numbers at the images [Q2R] of the coordinates.
    In [SVGGlobeRenderer] numbers are binary64 floats ([PrimFloat]), with the
    engine's [Math.sin] taken as a parameter of the section. *)

From Stdlib Require Import ZArith QArith Qround Qreals Reals Lra Lia Ascii.
From Stdlib Require Floats Lqa.
From stdpp Require Import base list gmap strings pretty.

(** * Part I: the embedding *)

(** ** The region catalog and the spatial index *)

Module MapManager.

(** [{ lat, lon }] in decimal degrees. *)
Record Centroid : Type := { lat : Q; lon : Q }.

(** The record [extractStates] stores per region. *)
Record State : Type := {
  id : string;
  name : string;
  centroid : option Centroid;      (* null when the path has no data-lat/data-lon *)
  owner : option string;
  color : option string;
  data : gmap string string
}.

(** The part of an SVG element the mutators touch: [element.style.fill]. *)
Record Element : Type := { style_fill : string }.

(** An entry of the array given to [buildSpatialIndex]:
    [{ id, centroid: { lat, lon } }]. *)
Record StateDatum : Type := { sd_id : string; sd_centroid : option Centroid }.

(** A grid cell is [null] or an array of state identifiers. *)
Abbreviation Cell := (option (list string)) (only parsing).

(** The fields of the class the modelled methods read or write. *)
Record t : Type := {
  states : gmap string State;
  stateElements : gmap string Element;
  spatialIndex : list Cell;
  gridWidth : Z;
  gridHeight : Z;
  cellsX : Z;
  cellsY : Z
}.

Definition constructor : t :=
  {| states := ∅; stateElements := ∅; spatialIndex := [];
     gridWidth := 360; gridHeight := 180; cellsX := 720; cellsY := 360 |}.

Definition set_spatialIndex (idx : list Cell) (M : t) : t :=
  {| states := states M; stateElements := stateElements M; spatialIndex := idx;
     gridWidth := gridWidth M; gridHeight := gridHeight M;
     cellsX := cellsX M; cellsY := cellsY M |}.

Definition set_states (st : gmap string State) (M : t) : t :=
  {| states := st; stateElements := stateElements M; spatialIndex := spatialIndex M;
     gridWidth := gridWidth M; gridHeight := gridHeight M;
     cellsX := cellsX M; cellsY := cellsY M |}.

Definition set_stateElements (els : gmap string Element) (M : t) : t :=
  {| states := states M; stateElements := els; spatialIndex := spatialIndex M;
     gridWidth := gridWidth M; gridHeight := gridHeight M;
     cellsX := cellsX M; cellsY := cellsY M |}.

(** [Math.floor((lon + 180) * (this.cellsX / 360))] *)
Definition gridX (M : t) (lon : Q) : Z :=
  Qfloor ((lon + 180) * (inject_Z (cellsX M) / 360))%Q.

(** [Math.floor((90 - lat) * (this.cellsY / 180))] *)
Definition gridY (M : t) (lat : Q) : Z :=
  Qfloor ((90 - lat) * (inject_Z (cellsY M) / 180))%Q.

(** [Math.max(0, Math.min(this.cellsX - 1, g))] *)
Definition clampX (M : t) (g : Z) : Z := Z.max 0 (Z.min (cellsX M - 1) g).

(** [Math.max(0, Math.min(this.cellsY - 1, g))] *)
Definition clampY (M : t) (g : Z) : Z := Z.max 0 (Z.min (cellsY M - 1) g).

(** [y * this.cellsX + x], as a position in the array. *)
Definition cellIndex (M : t) (x y : Z) : nat := Z.to_nat (y * cellsX M + x).

(** The values of [dx] and of [dy], in loop order. *)
Definition offsets : list Z := [-2; -1; 0; 1; 2]%Z.

(** The array positions visited by the two nested loops for a home cell
    [(gx, gy)]: [dx] is the outer loop, [dy] the inner one. *)
Definition neighbourhood (M : t) (gx gy : Z) : list nat :=
  dx ← offsets; dy ← offsets;
  [cellIndex M (clampX M (gx + dx)) (clampY M (gy + dy))].

(** [if (!idx[index]) idx[index] = []; idx[index].push(id)].  An empty array
    is truthy, so only [null] is replaced.  Every position the build visits
    lies inside the array ([neighbourhood_in_range] below), so the case in
    which JavaScript would extend the array is never reached. *)
Definition push_cell (k : string) (idx : list Cell) (i : nat) : list Cell :=
  match idx !! i with
  | Some (Some l) => <[i := Some (l ++ [k])]> idx
  | _ => <[i := Some [k]]> idx
  end.

(** The body of [stateData.forEach]. *)
Definition markState (M : t) (idx : list Cell) (state : StateDatum) : list Cell :=
  match sd_centroid state with
  | Some c =>
      fold_left (push_cell (sd_id state))
        (neighbourhood M (gridX M (lon c)) (gridY M (lat c))) idx
  | None => idx
  end.

(** [new Array(this.cellsX * this.cellsY).fill(null)] *)
Definition emptyIndex (M : t) : list Cell :=
  replicate (Z.to_nat (cellsX M * cellsY M)) None.

Definition buildSpatialIndex (stateData : list StateDatum) (M : t) : t :=
  set_spatialIndex (fold_left (markState M) stateData (emptyIndex M)) M.

(** *** Great-circle distance, over the reals *)

Local Open Scope R_scope.

(** [Math.atan2(y, x)] on real arguments. *)
Definition atan2 (y x : R) : R :=
  if Rlt_dec 0 x then atan (y / x)
  else if Rlt_dec x 0 then
    (if Rle_dec 0 y then atan (y / x) + PI else atan (y / x) - PI)
  else if Rlt_dec 0 y then PI / 2
  else if Rlt_dec y 0 then - (PI / 2)
  else 0.

(** The radicand [a] of the haversine formula. *)
Definition haversine_a (lat1 lon1 lat2 lon2 : R) : R :=
  let dLat := (lat2 - lat1) * PI / 180 in
  let dLon := (lon2 - lon1) * PI / 180 in
  sin (dLat / 2) * sin (dLat / 2) +
  cos (lat1 * PI / 180) * cos (lat2 * PI / 180) *
  sin (dLon / 2) * sin (dLon / 2).

Definition haversineDistance (lat1 lon1 lat2 lon2 : R) : R :=
  let R_ := 6371 in
  let a := haversine_a lat1 lon1 lat2 lon2 in
  let c := 2 * atan2 (sqrt a) (sqrt (1 - a)) in
  R_ * c.

(** Distance from a query point to a centroid, as [findStateAtCoords]
    calls [haversineDistance]. *)
Definition distanceTo (qlat qlon : Q) (c : Centroid) : R :=
  haversineDistance (Q2R qlat) (Q2R qlon) (Q2R (lat c)) (Q2R (lon c)).

Local Close Scope R_scope.

(** *** The point locator *)

(** The values [minDist] takes: [Infinity] or a distance. *)
Inductive MinDist : Type := Infinity | Dist (d : R).

(** [dist < minDist] *)
Definition lt_minDist (dist : R) (m : MinDist) : bool :=
  match m with
  | Infinity => true
  | Dist d => if Rlt_dec dist d then true else false
  end.

(** The body of [for (const stateId of candidates)], on the pair
    [(closest, minDist)]. *)
Definition visit (M : t) (qlat qlon : Q)
    (acc : option State * MinDist) (stateId : string) : option State * MinDist :=
  match states M !! stateId with
  | Some state =>
      match centroid state with
      | Some c =>
          let dist := distanceTo qlat qlon c in
          if lt_minDist dist (snd acc) then (Some state, Dist dist) else acc
      | None => acc
      end
  | None => acc
  end.

(** The position read by [findStateAtCoords]. *)
Definition queryIndex (M : t) (qlat qlon : Q) : nat :=
  cellIndex M (clampX M (gridX M qlon)) (clampY M (gridY M qlat)).

Definition findStateAtCoords (M : t) (qlat qlon : Q) : option State :=
  match spatialIndex M !! queryIndex M qlat qlon with
  | Some (Some candidates) =>
      match candidates with
      | [] => None
      | _ => fst (fold_left (visit M qlat qlon) candidates (None, Infinity))
      end
  | _ => None       (* null cell, or undefined outside the array *)
  end.

(** *** The guarded mutators *)

Definition setStateColor (stateId : string) (color : string) (M : t) : t :=
  match stateElements M !! stateId with
  | Some element =>
      let M1 := set_stateElements (<[stateId := {| style_fill := color |}]> (stateElements M)) M in
      match states M !! stateId with
      | Some state =>
          set_states (<[stateId := {| id := id state; name := name state;
                                      centroid := centroid state; owner := owner state;
                                      color := Some color; data := data state |}]> (states M)) M1
      | None => M1
      end
  | None => M
  end.

(** [Object.assign(state.data, data)]: the keys of [d] overwrite. *)
Definition updateStateData (stateId : string) (d : gmap string string) (M : t) : t :=
  match states M !! stateId with
  | Some state =>
      set_states (<[stateId := {| id := id state; name := name state;
                                  centroid := centroid state; owner := owner state;
                                  color := color state; data := d ∪ data state |}]> (states M)) M
  | None => M
  end.

(** *** Nation colours, highlights and queries *)

(** [this.states.get(stateId) || null] *)
Definition getState (stateId : string) (M : t) : option State :=
  states M !! stateId.

(** [if (color)] on a looked-up colour: [undefined] and the empty string are
    falsy. *)
Definition colourOf (nationColors : gmap string string) (nationId : string)
    : option string :=
  match nationColors !! nationId with
  | Some EmptyString | None => None
  | Some color => Some color
  end.

(** [applyNationColors]: [stateOwnership] is a [Map] of state identifier to
    nation identifier, walked in insertion order. *)
Definition applyNationColors (nationColors : gmap string string)
    (stateOwnership : list (string * string)) (M : t) : t :=
  fold_left
    (λ M entry,
       match colourOf nationColors (snd entry) with
       | Some color => setStateColor (fst entry) color M
       | None => M
       end)
    stateOwnership M.

(** The manager with the [data-original-fill] attribute of its elements,
    kept by the identifier an element is stored under; an identifier without
    an entry is an element without the attribute.  [style.fill] is read as
    the string last assigned to it. *)
Record Highlighting : Type := {
  manager : t;
  data_original_fill : gmap string string
}.

(** [highlightState(stateId, highlightColor)] *)
Definition highlightState (stateId : string) (highlightColor : string)
    (H : Highlighting) : Highlighting :=
  match stateElements (manager H) !! stateId with
  | Some element =>
      {| manager :=
           set_stateElements
             (<[stateId := {| style_fill := highlightColor |}]>
                (stateElements (manager H))) (manager H);
         data_original_fill :=
           <[stateId := style_fill element]> (data_original_fill H) |}
  | None => H
  end.

(** The default of the second parameter of [highlightState]. *)
Definition defaultHighlightColor : string := "#2a3530".

(** [unhighlightState(stateId)]: the fill is put back only when the
    attribute holds a non-empty string; the attribute stays. *)
Definition unhighlightState (stateId : string) (H : Highlighting) : Highlighting :=
  match stateElements (manager H) !! stateId with
  | Some element =>
      match data_original_fill H !! stateId with
      | Some EmptyString | None => H
      | Some originalFill =>
          {| manager :=
               set_stateElements
                 (<[stateId := {| style_fill := originalFill |}]>
                    (stateElements (manager H))) (manager H);
             data_original_fill := data_original_fill H |}
      end
  | None => H
  end.

(** [setStateColor] on the manager of a highlighting: it does not touch the
    attributes. *)
Definition recolour (stateId color : string) (H : Highlighting) : Highlighting :=
  {| manager := setStateColor stateId color (manager H);
     data_original_fill := data_original_fill H |}.

End MapManager.

(** ** JavaScript numbers and strings used by the renderer *)

Module JS.
Import Stdlib.Floats.Floats.

(** How a call completes: normally, or by throwing. *)
Inductive completion (A : Type) : Type :=
  | Normal (a : A)
  | Throw (error : string).
Arguments Normal {A} a.
Arguments Throw {A} error.

(** The double of an integer (exact below 2^53 in magnitude). *)
Definition of_Z (z : Z) : float :=
  match z with
  | Z0 => PrimFloat.zero
  | Zpos p => PrimFloat.of_uint63 (Uint63.of_Z (Zpos p))
  | Zneg p => PrimFloat.opp (PrimFloat.of_uint63 (Uint63.of_Z (Zpos p)))
  end.

(** [Math.floor] of a finite double, as an integer; [None] stands for the
    results that are not integers ([NaN] and the infinities). *)
Definition floor (x : float) : option Z :=
  match Prim2SF x with
  | S754_zero _ => Some 0%Z
  | S754_finite s m e =>
      let n := if s then Zneg m else Zpos m in
      Some (if (0 <=? e)%Z then Z.shiftl n e else Z.shiftr n (- e))
  | S754_infinity _ | S754_nan => None
  end.

Definition is_whitespace (c : ascii) : bool :=
  match Ascii.nat_of_ascii c with
  | 9 | 10 | 11 | 12 | 13 | 32 => true
  | _ => false
  end.

Definition hex_value (c : ascii) : option Z :=
  let n := Z.of_nat (Ascii.nat_of_ascii c) in
  if ((48 <=? n) && (n <=? 57))%Z then Some (n - 48)%Z
  else if ((97 <=? n) && (n <=? 102))%Z then Some (n - 87)%Z
  else if ((65 <=? n) && (n <=? 70))%Z then Some (n - 55)%Z
  else None.

Fixpoint trim_start (s : string) : string :=
  match s with
  | String c s' => if is_whitespace c then trim_start s' else s
  | EmptyString => s
  end.

(** The value so far and the number of digits read, over the longest prefix
    of hexadecimal digits. *)
Fixpoint hex_digits (s : string) (acc : Z) (n : nat) : Z * nat :=
  match s with
  | String c s' =>
      match hex_value c with
      | Some d => hex_digits s' (16 * acc + d)%Z (S n)
      | None => (acc, n)
      end
  | EmptyString => (acc, n)
  end.

Definition strip_0x (s : string) : string :=
  match s with
  | String "0"%char (String "x"%char s') | String "0"%char (String "X"%char s') => s'
  | _ => s
  end.

(** [parseInt(s, 16)] on ASCII input: leading white space, an optional
    sign, an optional [0x], then the longest run of hexadecimal digits;
    [None] is [NaN]. *)
Definition parseInt16 (s : string) : option Z :=
  let s1 := trim_start s in
  let '(sign, s2) :=
    match s1 with
    | String "-"%char s' => ((-1)%Z, s')
    | String "+"%char s' => (1%Z, s')
    | _ => (1%Z, s1)
    end in
  match hex_digits (strip_0x s2) 0 0 with
  | (_, O) => None
  | (v, _) => Some (sign * v)%Z
  end.

(** [String(n)] for the values a colour channel takes. *)
Definition toString (n : option Z) : string :=
  match n with
  | Some z => pretty z
  | None => "NaN"
  end.

End JS.

(** ** The renderer: regions, selection, colours and the canvas trace *)

Module SVGGlobeRenderer.
Import Stdlib.Floats.Floats JS.
Set Warnings "-inexact-float".

(** A region record of [loadSVG].  The DOM node [pathElement] is left out:
    no modelled method reads it. *)
Record Region : Type := {
  id : string;
  name : string;
  pathData : option string;   (* path.getAttribute('d'), null when absent *)
  owner : option string;      (* null when a caller clears it *)
  originalFill : string;
  className : string;
  selected : bool;
  data : gmap string string
}.

Record Theme : Type := {
  ocean : string;
  land : string;
  border : string;
  borderWidth : float;
  selectedBorder : string;
  selectedBorderWidth : float
}.

(** The [svg] element of the parsed document: its [viewBox] attribute, when
    present, already split on spaces and mapped through [Number]. *)
Record SvgElement : Type := { viewBox : option (list float) }.

(** [querySelector('svg')] finds an element or [null]. *)
Record SvgDoc : Type := { svg : option SvgElement }.

Record Canvas : Type := { width : Z; height : Z }.

Record Texture : Type := { needsUpdate : bool }.

(** The fields of the class the modelled methods use.  [regions] is the
    insertion-ordered [Map]; [textureCanvas] stands for the canvas and its
    2D context, which [createGlobe] creates together. *)
Record t : Type := {
  regions : list (string * Region);
  svgDoc : option SvgDoc;
  textureCanvas : option Canvas;
  texture : option Texture;
  ownerColors : gmap string string;   (* own properties of the palette object *)
  theme : Theme
}.

Definition set_regions (rs : list (string * Region)) (R : t) : t :=
  {| regions := rs; svgDoc := svgDoc R; textureCanvas := textureCanvas R;
     texture := texture R; ownerColors := ownerColors R; theme := theme R |}.

Definition set_texture (tx : option Texture) (R : t) : t :=
  {| regions := regions R; svgDoc := svgDoc R; textureCanvas := textureCanvas R;
     texture := tx; ownerColors := ownerColors R; theme := theme R |}.

Definition set_owner (o : option string) (r : Region) : Region :=
  {| id := id r; name := name r; pathData := pathData r; owner := o;
     originalFill := originalFill r; className := className r;
     selected := selected r; data := data r |}.

Definition set_selected (b : bool) (r : Region) : Region :=
  {| id := id r; name := name r; pathData := pathData r; owner := owner r;
     originalFill := originalFill r; className := className r;
     selected := b; data := data r |}.

(** [Map.prototype.get] *)
Fixpoint Map_get (k : string) (m : list (string * Region)) : option Region :=
  match m with
  | [] => None
  | (k', r) :: m' => if decide (k' = k) then Some r else Map_get k m'
  end.

(** A field assignment on the object [Map.prototype.get] returned. *)
Fixpoint Map_update (k : string) (f : Region → Region) (m : list (string * Region))
    : list (string * Region) :=
  match m with
  | [] => []
  | (k', r) :: m' =>
      if decide (k' = k) then (k', f r) :: m' else (k', r) :: Map_update k f m'
  end.

(** [Map.prototype.set]: an existing key keeps its place. *)
Definition Map_set (k : string) (r : Region) (m : list (string * Region))
    : list (string * Region) :=
  match Map_get k m with
  | Some _ => Map_update k (λ _, r) m
  | None => m ++ [(k, r)]
  end.

(** The attributes [loadSVG] reads on a [path] element. *)
Record PathAttrs : Type := {
  attr_id : option string;
  attr_data_id : option string;
  attr_data_name : option string;
  attr_title : option string;
  attr_class : option string;
  attr_d : option string;
  attr_fill : option string
}.

(** A string is falsy exactly when it is empty. *)
Definition truthy (s : option string) : option string :=
  match s with
  | Some EmptyString | None => None
  | Some v => Some v
  end.

(** [a || b] on attribute values. *)
Definition or_else (a : option string) (b : string) : string :=
  match truthy a with
  | Some v => v
  | None => b
  end.

(** The body of [paths.forEach] in [loadSVG]. *)
Definition addPath (rs : list (string * Region)) (path : PathAttrs)
    : list (string * Region) :=
  let id := or_else (attr_id path)
              (or_else (attr_data_id path) ("region_" +:+ pretty (length rs))) in
  let name := or_else (attr_data_name path) (or_else (attr_title path) id) in
  let className := or_else (attr_class path) "" in
  Map_set id
    {| id := id; name := name; pathData := attr_d path;
       owner := Some "unoccupied";
       originalFill := or_else (attr_fill path) "#cccccc";
       className := className; selected := false; data := ∅ |} rs.

(** The regions after [loadSVG] has walked the paths of the document. *)
Definition loadPaths (paths : list PathAttrs) (rs : list (string * Region))
    : list (string * Region) :=
  fold_left addPath paths rs.

Definition constructor : t :=
  {| regions := []; svgDoc := None; textureCanvas := None; texture := None;
     ownerColors :=
       <["player" := "#00ff88"]> (<["ally" := "#00aaff"]> (<["neutral" := "#888888"]>
       (<["hostile" := "#ff4444"]> (<["contested" := "#ffaa00"]>
       (<["unoccupied" := "#2a3a2a"]> ∅)))));
     theme := {| ocean := "#0a1520"; land := "#152520"; border := "#00ff88";
                 borderWidth := 1; selectedBorder := "#ffffff";
                 selectedBorderWidth := 3 |} |}.

(** *** Colour derivation *)

(** [Math.floor(parseInt(hex, 16) * factor)] with [factor = 0.3], the double
    nearest to three tenths. *)
Definition factor : float := 0x1.3333333333333p-2.

Definition darken (channel : option Z) : option Z :=
  match channel with
  | Some r => floor (of_Z r * factor)
  | None => None
  end.

Definition adjustColorForLand (hexColor : string) : string :=
  let r := parseInt16 (String.substring 1 2 hexColor) in
  let g := parseInt16 (String.substring 3 2 hexColor) in
  let b := parseInt16 (String.substring 5 2 hexColor) in
  let newR := darken r in
  let newG := darken g in
  let newB := darken b in
  "rgb(" +:+ toString newR +:+ ", " +:+ toString newG +:+ ", " +:+ toString newB +:+ ")".

(** *** The canvas calls of a redraw *)

(** The two gradient objects [addIceCaps] creates. *)
Inductive GradientVar : Type := northCapGradient | southCapGradient.

Inductive Style : Type :=
  | Color (css : string)
  | Gradient (g : GradientVar).

(** A call on the 2D context (or on a gradient it returned), with its
    arguments.  [FillPath d] is [ctx.fill(new Path2D(d))]. *)
Inductive CanvasCall : Type :=
  | SetFillStyle (v : Style)
  | SetStrokeStyle (v : string)
  | SetLineWidth (w : float)
  | FillRect (x y w h : float)
  | Save
  | Scale (sx sy : float)
  | Restore
  | FillPath (d : string)
  | StrokePath (d : string)
  | CreateLinearGradient (g : GradientVar) (x0 y0 x1 y1 : float)
  | AddColorStop (g : GradientVar) (offset : float) (css : string)
  | BeginPath
  | MoveTo (x y : float)
  | LineTo (x y : float)
  | ClosePath
  | Fill
  | Stroke.

Section Rendering.

(** [Math.sin], which the language leaves to the engine. *)
Variable Math_sin : float → float.

Local Open Scope float_scope.

(** [this.ownerColors[region.owner]] is read among the own properties of
    the palette; an owner named after a property that every object inherits
    (such as [constructor]) is outside the model. *)
Definition renderRegion (R : t) (region : Region) : list CanvasCall :=
  match truthy (pathData region) with
  | None => []
  | Some d =>
      let fillColor :=
        match truthy (owner region) with
        | Some o =>
            match truthy (ownerColors R !! o) with
            | Some c => adjustColorForLand c
            | None => land (theme R)
            end
        | None => land (theme R)
        end in
      [ SetFillStyle (Color fillColor);
        FillPath d;
        SetStrokeStyle (if selected region then selectedBorder (theme R)
                        else border (theme R));
        SetLineWidth (if selected region then selectedBorderWidth (theme R)
                      else borderWidth (theme R));
        StrokePath d ]
  end.

(** The values of [x] in [for (let x = 0; x <= width; x += 40)]. *)
Definition iceEdgeSteps (w : Z) : list Z :=
  if (w <? 0)%Z then []
  else (λ k, 40 * Z.of_nat k)%Z <$> seq 0 (S (Z.to_nat (w / 40))).

Definition addIceCaps (w h : Z) : list CanvasCall :=
  let width := of_Z w in
  let height := of_Z h in
  [ CreateLinearGradient northCapGradient 0 0 0 (height * 0.15);
    AddColorStop northCapGradient 0 "rgba(180, 200, 230, 0.95)";
    AddColorStop northCapGradient 0.5 "rgba(150, 180, 210, 0.7)";
    AddColorStop northCapGradient 1 "rgba(100, 140, 180, 0)";
    SetFillStyle (Gradient northCapGradient);
    FillRect 0 0 width (height * 0.15);
    SetFillStyle (Color "rgba(200, 220, 240, 0.8)");
    BeginPath;
    MoveTo 0 (height * 0.08) ] ++
  ((λ x, LineTo (of_Z x)
           (height * 0.08 + Math_sin (of_Z x * 0.015) * 12
                          + Math_sin (of_Z x * 0.03) * 8)) <$> iceEdgeSteps w) ++
  [ LineTo width 0;
    LineTo 0 0;
    ClosePath;
    Fill;
    CreateLinearGradient southCapGradient 0 height 0 (height * 0.92);
    AddColorStop southCapGradient 0 "rgba(200, 220, 240, 0.9)";
    AddColorStop southCapGradient 1 "rgba(150, 180, 210, 0)";
    SetFillStyle (Gradient southCapGradient);
    FillRect 0 (height * 0.92) width (height * 0.08) ].

Definition addGridLines (w h : Z) : list CanvasCall :=
  let width := of_Z w in
  let height := of_Z h in
  [ SetStrokeStyle "rgba(0, 255, 136, 0.1)"; SetLineWidth 1 ] ++
  (i ← seq 0 19;
   let y := of_Z (Z.of_nat i) * (height / 18) in
   [ BeginPath; MoveTo 0 y; LineTo width y; Stroke ]) ++
  (i ← seq 0 37;
   let x := of_Z (Z.of_nat i) * (width / 36) in
   [ BeginPath; MoveTo x 0; LineTo x height; Stroke ]).

(** The outlines of [renderFallbackMap], as fractions of the canvas. *)
Definition continents : list (string * list (float * float)) :=
  [ ("North America",
     [(0.1, 0.15); (0.25, 0.1); (0.3, 0.2); (0.27, 0.4); (0.17, 0.45); (0.07, 0.3)]);
    ("South America",
     [(0.2, 0.5); (0.25, 0.48); (0.26, 0.7); (0.22, 0.85); (0.17, 0.8); (0.19, 0.6)]);
    ("Europe",
     [(0.45, 0.12); (0.55, 0.1); (0.57, 0.2); (0.55, 0.3); (0.47, 0.28); (0.44, 0.18)]);
    ("Africa",
     [(0.45, 0.35); (0.55, 0.32); (0.57, 0.5); (0.52, 0.7); (0.45, 0.68); (0.42, 0.5)]);
    ("Asia",
     [(0.57, 0.1); (0.8, 0.08); (0.85, 0.2); (0.82, 0.4); (0.7, 0.45); (0.6, 0.35);
      (0.55, 0.2)]);
    ("Australia",
     [(0.75, 0.6); (0.82, 0.58); (0.85, 0.7); (0.8, 0.78); (0.74, 0.75)]) ].

Definition renderFallbackMap (R : t) (w h : Z) : list CanvasCall :=
  let width := of_Z w in
  let height := of_Z h in
  [ SetFillStyle (Color (ocean (theme R)));
    FillRect 0 0 width height;
    SetFillStyle (Color (land (theme R)));
    SetStrokeStyle (border (theme R));
    SetLineWidth 2 ] ++
  (continent ← continents;
   match snd continent with
   | [] => [ BeginPath ]   (* not reached: every outline has points *)
   | firstPoint :: _ =>
       [ BeginPath; MoveTo (fst firstPoint * width) (snd firstPoint * height) ] ++
       ((λ point, LineTo (fst point * width) (snd point * height)) <$> snd continent) ++
       [ ClosePath; Fill; Stroke ]
   end) ++
  addIceCaps w h ++
  addGridLines w h.

(** [if (this.texture) this.texture.needsUpdate = true] *)
Definition markTexture (R : t) : t :=
  match texture R with
  | Some _ => set_texture (Some {| needsUpdate := true |}) R
  | None => R
  end.

(** [renderToCanvas]: the state it leaves, the calls it made on the
    context, and how it completed.  It throws when the canvas does not
    exist yet ([this.textureCanvas.width] on [null]) and when the document
    has no [svg] element ([svgElement.getAttribute] on [null]), in the
    second case after the ocean fill. *)
Definition renderToCanvas (R : t) : t * list CanvasCall * completion unit :=
  match textureCanvas R with
  | None => (R, [], Throw "TypeError")
  | Some canvas =>
      let w := width canvas in
      let h := height canvas in
      let clear := [ SetFillStyle (Color (ocean (theme R)));
                     FillRect 0 0 (of_Z w) (of_Z h) ] in
      match svgDoc R with
      | None => (R, clear ++ renderFallbackMap R w h, Normal ())
      | Some doc =>
          match svg doc with
          | None => (R, clear, Throw "TypeError")
          | Some svgElement =>
              let viewBox := default [0; 0; 2000; 1000] (viewBox svgElement) in
              let svgWidth := nth 2 viewBox PrimFloat.nan in
              let svgHeight := nth 3 viewBox PrimFloat.nan in
              let scaleX := of_Z w / svgWidth in
              let scaleY := of_Z h / svgHeight in
              (markTexture R,
               clear ++
               [ Save; Scale scaleX scaleY ] ++
               (entry ← regions R; renderRegion R (snd entry)) ++
               [ Restore ] ++
               addIceCaps w h ++
               addGridLines w h,
               Normal ())
          end
      end
  end.

(** *** Ownership and selection *)

Definition setRegionOwner (regionId : string) (o : option string) (R : t)
    : t * list CanvasCall * completion unit :=
  match Map_get regionId (regions R) with
  | Some _ =>
      renderToCanvas (set_regions (Map_update regionId (set_owner o) (regions R)) R)
  | None => (R, [], Normal ())
  end.

Definition setRegionsOwner (regionIds : list string) (o : option string) (R : t)
    : t * list CanvasCall * completion unit :=
  renderToCanvas
    (set_regions
       (fold_left (λ rs k, Map_update k (set_owner o) rs) regionIds (regions R)) R).

(** [this.regions.forEach(region => { region.selected = false; })] *)
Definition deselectAll (rs : list (string * Region)) : list (string * Region) :=
  (λ entry, (fst entry, set_selected false (snd entry))) <$> rs.

(** [selectRegion] returns the region, or [null]. *)
Definition selectRegion (regionId : string) (R : t)
    : t * list CanvasCall * completion (option Region) :=
  let R1 := set_regions (deselectAll (regions R)) R in
  match Map_get regionId (regions R1) with
  | Some region =>
      let R2 := set_regions (Map_update regionId (set_selected true) (regions R1)) R1 in
      match renderToCanvas R2 with
      | (R3, calls, Normal _) => (R3, calls, Normal (Some (set_selected true region)))
      | (R3, calls, Throw e) => (R3, calls, Throw e)
      end
  | None => (R1, [], Normal None)
  end.

End Rendering.

(** *** Queries *)

(** [if (region.owner === owner) result.push(region)], in insertion order. *)
Definition getRegionsByOwner (o : option string) (R : t) : list Region :=
  snd <$> filter (λ entry, owner (snd entry) = o) (regions R).

(** [Array.from(this.regions.keys())] *)
Definition getAllRegionIds (R : t) : list string := fst <$> regions R.

(** [this.regions.get(regionId)]; [None] is [undefined]. *)
Definition getRegion (regionId : string) (R : t) : option Region :=
  Map_get regionId (regions R).

End SVGGlobeRenderer.

(** * Part II: the notions the properties are stated with *)

(** ** Cells, candidates and centroids *)

Module GridNotions.
Import MapManager.

(** The candidate list of position [i]: empty for [null] and outside the
    array. *)
Definition candidatesAt (idx : list Cell) (i : nat) : list string :=
  match idx !! i with
  | Some (Some l) => l
  | _ => []
  end.

(** No cell holds an empty array: a cell is [null] until its first push. *)
Definition no_empty_cell (idx : list Cell) : Prop :=
  ∀ i, idx !! i ≠ Some (Some []).

(** What one datum adds to position [j], in push order. *)
Definition marks (M : t) (j : nat) (state : StateDatum) : list string :=
  match sd_centroid state with
  | Some c =>
      (λ _, sd_id state) <$>
        filter (λ i, i = j) (neighbourhood M (gridX M (lon c)) (gridY M (lat c)))
  | None => []
  end.

(** The content of position [j] after a build, computed without the array. *)
Definition cellContent (M : t) (stateData : list StateDatum) (j : nat) : list string :=
  stateData ≫= marks M j.

(** The identifier [k] names a catalog region that has a centroid: the
    candidates the loop does not skip. *)
Definition resolves (M : t) (k : string) (s : State) (c : Centroid) : Prop :=
  states M !! k = Some s ∧ centroid s = Some c.

(** [(closest, minDist)] after the candidates [l] have been visited: nothing
    yet when no candidate of [l] resolves; otherwise the region of the first
    candidate, in list order, whose distance no other candidate undercuts. *)
Definition closest_so_far (M : t) (qlat qlon : Q) (l : list string)
    (acc : option State * MinDist) : Prop :=
  match acc with
  | (None, Infinity) => ∀ k s c, k ∈ l → ¬ resolves M k s c
  | (Some s, Dist d) =>
      ∃ i k c, l !! i = Some k ∧ resolves M k s c ∧ d = distanceTo qlat qlon c ∧
        ∀ j k' s' c', l !! j = Some k' → resolves M k' s' c' →
          (d <= distanceTo qlat qlon c')%R ∧
          (j < i → (d < distanceTo qlat qlon c')%R)
  | _ => False
  end.

(** The catalog's centroid list: [{ id, centroid }] per region. *)
Definition centroidList (l : list State) : list StateDatum :=
  (λ s, {| sd_id := id s; sd_centroid := centroid s |}) <$> l.

(** The neighbourhood as the specification words it: the home cell is
    clamped first, and the 5x5 block is taken around the clamped cell. *)
Definition specNeighbourhood (M : t) (gx gy : Z) : list nat :=
  dx ← offsets; dy ← offsets;
  [cellIndex M (clampX M (clampX M gx + dx)) (clampY M (clampY M gy + dy))].

(** The column a query reads: its own when it lies in the grid, else the
    nearest edge column. *)
Definition nearestX (M : t) (g : Z) : Z :=
  if (g <? 0)%Z then 0%Z else if (cellsX M <=? g)%Z then (cellsX M - 1)%Z else g.

Definition nearestY (M : t) (g : Z) : Z :=
  if (g <? 0)%Z then 0%Z else if (cellsY M <=? g)%Z then (cellsY M - 1)%Z else g.

(** The coordinates the specification allows for a centroid. *)
Definition in_range (c : Centroid) : Prop :=
  (-90 <= lat c)%Q ∧ (lat c <= 90)%Q ∧ (-180 <= lon c)%Q ∧ (lon c <= 180)%Q.

(** Two in-range centroids denote one point of the globe: same latitude,
    and same longitude unless they sit on a pole or on the two ends of the
    180th meridian. *)
Definition coincident (c c' : Centroid) : Prop :=
  (lat c == lat c')%Q ∧
  ((lon c == lon c')%Q ∨ (lat c == 90)%Q ∨ (lat c == -90)%Q ∨
   ((lon c == -180)%Q ∧ (lon c' == 180)%Q) ∨
   ((lon c == 180)%Q ∧ (lon c' == -180)%Q)).

End GridNotions.

(** ** Inputs and results of a redraw, selection, colour channels *)

Module RenderNotions.
Import Stdlib.Floats.Floats JS SVGGlobeRenderer.

(** The state, the calls and the completion of a call's result. *)
Definition state_of {A} (res : t * list CanvasCall * completion A) : t := res.1.1.
Definition calls_of {A} (res : t * list CanvasCall * completion A)
  : list CanvasCall := res.1.2.
Definition completion_of {A} (res : t * list CanvasCall * completion A)
  : completion A := res.2.

(** What the specification lists as the inputs of a redraw: the geometry
    (the path data of the regions in document order, the parsed document
    with its [viewBox], the size of the texture canvas), the ownership and
    the selection flags of the regions, and the palette (theme and owner
    colours). *)
Definition regionInputs (r : Region) : option string * option string * bool :=
  (pathData r, owner r, selected r).

Definition renderInputs (R : t) :=
  ((λ entry, regionInputs (snd entry)) <$> regions R,
   svgDoc R, textureCanvas R, ownerColors R, theme R).

Definition selectedCount (rs : list (string * Region)) : nat :=
  length (filter (λ entry, selected (snd entry) = true) rs).

(** The state after the calls [selectRegion(k)] for [k] in [ids], in order;
    what a call did to the regions stays when its redraw throws. *)
Definition selectAll (Math_sin : float → float) (ids : list string) (R : t) : t :=
  fold_left (λ R k, state_of (selectRegion Math_sin k R)) ids R.

(** The value of a two-digit hexadecimal channel. *)
Definition channel_value (c1 c2 : ascii) : Z :=
  (16 * default 0 (hex_value c1) + default 0 (hex_value c2))%Z.

(** The channel times three tenths, floored, in exact arithmetic. *)
Definition three_tenths (r : Z) : Z := Qfloor (inject_Z r * (3 # 10))%Q.

Definition hex_chars : list ascii :=
  String.list_ascii_of_string "0123456789abcdefABCDEF".

End RenderNotions.

(** ** Sample data *)

Module MapScenario.
Import MapManager GridNotions.

(** The catalog of the end-to-end scenario: [A] at (10, 10), [B] at
    (-10, -10), [C] without a centroid; [E] sits on the 180th meridian. *)
Definition regionA : State :=
  {| id := "A"; name := "A"; centroid := Some {| lat := 10; lon := 10 |};
     owner := None; color := None; data := ∅ |}.
Definition regionB : State :=
  {| id := "B"; name := "B"; centroid := Some {| lat := -10; lon := -10 |};
     owner := None; color := None; data := ∅ |}.
Definition regionC : State :=
  {| id := "C"; name := "C"; centroid := None;
     owner := None; color := None; data := ∅ |}.
Definition regionE : State :=
  {| id := "E"; name := "E"; centroid := Some {| lat := 0; lon := 180 |};
     owner := None; color := None; data := ∅ |}.

Definition catalog : list State := [regionA; regionB; regionC; regionE].

(** [this.states.set(id, ...)] for each region, on a fresh manager. *)
Definition loaded : t :=
  set_states (foldr (λ s m, <[id s := s]> m) ∅ catalog) constructor.

(** Centroids supplied from outside the catalog: the record for [C] carries
    a centroid although the catalog region [C] has none. *)
Definition externalData : list StateDatum :=
  [{| sd_id := "C"; sd_centroid := Some {| lat := 50; lon := 50 |} |}].

End MapScenario.

Module RenderScenario.
Import Stdlib.Floats.Floats JS SVGGlobeRenderer.

Definition sampleRegion (k : string) (sel : bool) : Region :=
  {| id := k; name := k; pathData := Some "M 0 0 L 10 0 L 10 10 Z";
     owner := Some "unoccupied"; originalFill := "#cccccc"; className := "";
     selected := sel; data := ∅ |}.

(** The renderer after [loadSVG] on a map with the paths [A] and [B] and
    after [createGlobe]: a 2048 x 1024 canvas and a texture. *)
Definition sampleRenderer : t :=
  {| regions := [("A", sampleRegion "A" false); ("B", sampleRegion "B" false)];
     svgDoc := Some {| svg := Some {| viewBox := None |} |};
     textureCanvas := Some {| width := 2048; height := 1024 |};
     texture := Some {| needsUpdate := false |};
     ownerColors := ownerColors constructor;
     theme := theme constructor |}.

(** The same map with other names, payloads and fills, and a texture
    already marked for upload. *)
Definition renamedRenderer : t :=
  {| regions :=
       [("A", {| id := "A"; name := "Alpha"; pathData := Some "M 0 0 L 10 0 L 10 10 Z";
                 owner := Some "unoccupied"; originalFill := "#ffffff";
                 className := "land"; selected := false;
                 data := <["troops" := "12"]> ∅ |});
        ("B", sampleRegion "B" false)];
     svgDoc := Some {| svg := Some {| viewBox := None |} |};
     textureCanvas := Some {| width := 2048; height := 1024 |};
     texture := Some {| needsUpdate := true |};
     ownerColors := ownerColors constructor;
     theme := theme constructor |}.

(** An instance of the engine function, for the closed examples. *)
Definition sampleSin : float → float := λ x, x.

End RenderScenario.

(** ** Catalog records up to colour and payload *)

Module CatalogNotions.
Import MapManager.

(** Two catalog records of one region: they agree on everything except,
    possibly, the colour and the payload. *)
Definition sameRegion (s s' : State) : Prop :=
  id s = id s' ∧ name s = name s' ∧ centroid s = centroid s' ∧ owner s = owner s'.

(** Two lookup results that name the same region, or are both [null]. *)
Definition sameAnswer (o o' : option State) : Prop :=
  match o, o' with
  | Some s, Some s' => sameRegion s s'
  | None, None => True
  | _, _ => False
  end.

(** Two managers with the same grid and index whose catalogs hold the same
    regions. *)
Definition sameCatalog (M M' : t) : Prop :=
  spatialIndex M' = spatialIndex M ∧ cellsX M' = cellsX M ∧ cellsY M' = cellsY M ∧
  ∀ k, sameAnswer (states M !! k) (states M' !! k).

(** [state.color = color] *)
Definition withColor (color : string) (s : State) : State :=
  {| id := id s; name := name s; centroid := centroid s; owner := owner s;
     color := Some color; data := data s |}.

(** [Object.assign(state.data, d)] *)
Definition withData (d : gmap string string) (s : State) : State :=
  {| id := id s; name := name s; centroid := centroid s; owner := owner s;
     color := color s; data := d ∪ data s |}.

(** The colour [applyNationColors] gives to the state [k]: that of the last
    entry for [k] whose nation has a colour. *)
Fixpoint assignedColour (nationColors : gmap string string)
    (stateOwnership : list (string * string)) (k : string) : option string :=
  match stateOwnership with
  | [] => None
  | entry :: rest =>
      match assignedColour nationColors rest k with
      | Some color => Some color
      | None =>
          if decide (fst entry = k) then colourOf nationColors (snd entry) else None
      end
  end.

(** A run of [setStateColor] calls on a manager whose elements may be
    highlighted. *)
Definition recolourAll (calls : list (string * string)) (H : Highlighting) : Highlighting :=
  fold_left (λ H call, recolour (fst call) (snd call) H) calls H.

(** The element [unhighlightState] leaves for one that was highlighted with
    [highlightColor]: its own when it had a fill, the highlighted one when
    its fill was empty. *)
Definition afterRoundTrip (highlightColor : string) (element : Element) : Element :=
  if decide (style_fill element = "") then {| style_fill := highlightColor |} else element.

End CatalogNotions.

(** ** Notions for the region catalog and the redraw *)

Module RegionNotions.
Import Stdlib.Floats.Floats JS SVGGlobeRenderer RenderNotions.

(** The identifier [loadSVG] gives a path when the catalog holds [n]
    regions. *)
Definition pathId (n : nat) (path : PathAttrs) : string :=
  or_else (attr_id path) (or_else (attr_data_id path) ("region_" +:+ pretty n)).

(** What [loadSVG] stores for every region: its key as [id], the owner
    ['unoccupied'], not selected, no payload. *)
Definition fresh_region (k : string) (r : Region) : Prop :=
  id r = k ∧ owner r = Some "unoccupied" ∧ selected r = false ∧ data r = ∅.

(** The path data handed to [ctx.fill(path)] and to [ctx.stroke(path)], in
    call order. *)
Definition filled (calls : list CanvasCall) : list string :=
  omap (λ call, match call with FillPath d => Some d | _ => None end) calls.

Definition stroked (calls : list CanvasCall) : list string :=
  omap (λ call, match call with StrokePath d => Some d | _ => None end) calls.

(** The path data of the regions that have some, in insertion order. *)
Definition drawn (rs : list (string * Region)) : list string :=
  omap (λ entry, truthy (pathData (snd entry))) rs.

(** Everything of the renderer but the texture and its flag. *)
Definition drawnState (R : t) :=
  (regions R, svgDoc R, textureCanvas R, ownerColors R, theme R).

(** [setRegionOwner(k, o)] for each [k] of [ids], in order. *)
Definition setOwnerEach (Math_sin : float → float) (ids : list string)
    (o : option string) (R : t) : t :=
  fold_left (λ R k, state_of (setRegionOwner Math_sin k o R)) ids R.

End RegionNotions.

(** ** Notions for the reach of a lookup *)

Module LocalityNotions.
Import MapManager.

(** The query's cell is within two columns and two rows of the home cell of
    the centroid [c], before any clamping. *)
Definition covers (M : t) (qlat qlon : Q) (c : Centroid) : Prop :=
  (-2 ≤ gridX M qlon - gridX M (lon c) ≤ 2)%Z ∧
  (-2 ≤ gridY M qlat - gridY M (lat c) ≤ 2)%Z.

(** The cell read for the query is within two columns and two rows of the
    cell read for the centroid [c]. *)
Definition cells_apart_le2 (M : t) (qlat qlon : Q) (c : Centroid) : Prop :=
  (Z.abs (clampX M (gridX M qlon) - clampX M (gridX M (lon c))) ≤ 2)%Z ∧
  (Z.abs (clampY M (gridY M qlat) - clampY M (gridY M (lat c))) ≤ 2)%Z.

(** Latitude and longitude of the query and of [c] differ by at most
    [bound] degrees each. *)
Definition degrees_apart_le (bound : Q) (qlat qlon : Q) (c : Centroid) : Prop :=
  (qlat - lat c <= bound)%Q ∧ (lat c - qlat <= bound)%Q ∧
  (qlon - lon c <= bound)%Q ∧ (lon c - qlon <= bound)%Q.

(** The centroid records agree with the catalog: a record with a centroid
    whose identifier is in the catalog carries the catalog's centroid. *)
Definition consistent (M : t) (stateData : list StateDatum) : Prop :=
  ∀ state c s, state ∈ stateData → sd_centroid state = Some c →
               states M !! sd_id state = Some s → centroid s = Some c.

End LocalityNotions.

(** ** Sample data for ties *)

Module TieScenario.
Import MapManager GridNotions.

(** Two regions with one centroid, listed in the order [T1], [T2]. *)
Definition twin (k : string) : State :=
  {| id := k; name := k; centroid := Some {| lat := 10; lon := 10 |};
     owner := None; color := None; data := ∅ |}.

Definition twins : list State := [twin "T1"; twin "T2"].

Definition twinsLoaded : t :=
  set_states (foldr (λ s m, <[id s := s]> m) ∅ twins) constructor.

End TieScenario.

(** * Part III: properties *)

(** ** The grid: what a build puts in each cell *)

Module IndexFacts.
Import MapManager GridNotions.

Lemma length_push_cell k idx i : length (push_cell k idx i) = length idx.
Proof.
  unfold push_cell.
  destruct (idx !! i) as [[l|]|]; apply length_insert.
Qed.

Lemma length_fold_push k ps idx :
  length (fold_left (push_cell k) ps idx) = length idx.
Proof.
  revert idx. induction ps as [|i ps IH]; intros idx; simpl; [done|].
  rewrite IH. apply length_push_cell.
Qed.

Lemma candidatesAt_push_cell k idx i j :
  i < length idx →
  candidatesAt (push_cell k idx i) j =
  candidatesAt idx j ++ (if decide (i = j) then [k] else []).
Proof.
  intros Hi. unfold candidatesAt, push_cell.
  destruct (decide (i = j)) as [->|Hne].
  - destruct (idx !! j) as [[l|]|] eqn:E.
    + by rewrite list_lookup_insert_eq.
    + by rewrite list_lookup_insert_eq.
    + apply lookup_ge_None in E. lia.
  - destruct (idx !! i) as [[l|]|];
      rewrite list_lookup_insert_ne by done;
      by rewrite app_nil_r.
Qed.

Lemma no_empty_push_cell k idx i :
  no_empty_cell idx → no_empty_cell (push_cell k idx i).
Proof.
  intros Hw j. unfold push_cell.
  destruct (idx !! i) as [[l|]|] eqn:E.
  - destruct (decide (i = j)) as [->|Hne].
    + rewrite list_lookup_insert_eq by (eapply lookup_lt_Some; eauto).
      intros [=]. by destruct l.
    + rewrite list_lookup_insert_ne by done. apply Hw.
  - destruct (decide (i = j)) as [->|Hne].
    + rewrite list_lookup_insert_eq by (eapply lookup_lt_Some; eauto). done.
    + rewrite list_lookup_insert_ne by done. apply Hw.
  - rewrite list_insert_ge by (by apply lookup_ge_None). apply Hw.
Qed.

Lemma candidatesAt_fold_push k ps idx j :
  Forall (λ i, i < length idx) ps →
  candidatesAt (fold_left (push_cell k) ps idx) j =
  candidatesAt idx j ++ ((λ _, k) <$> filter (λ i, i = j) ps).
Proof.
  revert idx. induction ps as [|i ps IH]; intros idx Hall; simpl.
  - by rewrite app_nil_r.
  - inversion Hall as [|? ? Hi Hrest]; subst.
    rewrite IH by (by rewrite length_push_cell).
    rewrite candidatesAt_push_cell by done.
    rewrite filter_cons. destruct (decide (i = j)); simpl.
    + by rewrite <- app_assoc.
    + by rewrite app_nil_r.
Qed.

Lemma no_empty_fold_push k ps idx :
  no_empty_cell idx → no_empty_cell (fold_left (push_cell k) ps idx).
Proof.
  revert idx. induction ps as [|i ps IH]; intros idx Hw; simpl; [done|].
  apply IH. by apply no_empty_push_cell.
Qed.

(** The clamps keep a cell inside the grid. *)
Lemma clampX_range M g : (0 < cellsX M)%Z → (0 ≤ clampX M g < cellsX M)%Z.
Proof. unfold clampX. lia. Qed.

Lemma clampY_range M g : (0 < cellsY M)%Z → (0 ≤ clampY M g < cellsY M)%Z.
Proof. unfold clampY. lia. Qed.

Lemma cellIndex_range M x y :
  (0 ≤ x < cellsX M)%Z → (0 ≤ y < cellsY M)%Z →
  cellIndex M x y < Z.to_nat (cellsX M * cellsY M).
Proof. unfold cellIndex. intros Hx Hy. nia. Qed.

(** Distinct cells of the grid have distinct positions. *)
Lemma cellIndex_inj M x y x' y' :
  (0 ≤ x < cellsX M)%Z → (0 ≤ y < cellsY M)%Z →
  (0 ≤ x' < cellsX M)%Z → (0 ≤ y' < cellsY M)%Z →
  cellIndex M x y = cellIndex M x' y' → x = x' ∧ y = y'.
Proof.
  unfold cellIndex. intros Hx Hy Hx' Hy' E.
  assert (y * cellsX M + x = y' * cellsX M + x')%Z as E' by nia.
  assert (y = y') by nia. subst. lia.
Qed.

Lemma elem_of_neighbourhood M gx gy i :
  i ∈ neighbourhood M gx gy ↔
  ∃ dx dy, dx ∈ offsets ∧ dy ∈ offsets ∧
    i = cellIndex M (clampX M (gx + dx)) (clampY M (gy + dy)).
Proof.
  unfold neighbourhood. rewrite list_elem_of_bind. split.
  - intros (dx & Hi & Hdx). apply list_elem_of_bind in Hi as (dy & Hi & Hdy).
    apply list_elem_of_singleton in Hi. eauto.
  - intros (dx & dy & Hdx & Hdy & ->). exists dx. split; [|done].
    apply list_elem_of_bind. exists dy. split; [|done].
    by apply list_elem_of_singleton.
Qed.

Lemma elem_of_offsets d : d ∈ offsets ↔ (-2 ≤ d ≤ 2)%Z.
Proof.
  unfold offsets. rewrite !elem_of_cons, elem_of_nil. lia.
Qed.

Lemma neighbourhood_in_range M gx gy :
  (0 < cellsX M)%Z → (0 < cellsY M)%Z →
  Forall (λ i, i < Z.to_nat (cellsX M * cellsY M)) (neighbourhood M gx gy).
Proof.
  intros HX HY. apply Forall_forall. intros i Hi.
  apply elem_of_neighbourhood in Hi as (dx & dy & _ & _ & ->).
  apply cellIndex_range; [by apply clampX_range | by apply clampY_range].
Qed.

Lemma length_markState M idx state :
  length (markState M idx state) = length idx.
Proof.
  unfold markState. destruct (sd_centroid state); [|done].
  apply length_fold_push.
Qed.

Lemma length_fold_markState M stateData idx :
  length (fold_left (markState M) stateData idx) = length idx.
Proof.
  revert idx. induction stateData as [|d ds IH]; intros idx; simpl; [done|].
  rewrite IH. apply length_markState.
Qed.

Lemma length_emptyIndex M : length (emptyIndex M) = Z.to_nat (cellsX M * cellsY M).
Proof. unfold emptyIndex. apply length_replicate. Qed.

Lemma length_buildSpatialIndex stateData M :
  length (spatialIndex (buildSpatialIndex stateData M)) =
  Z.to_nat (cellsX M * cellsY M).
Proof.
  unfold buildSpatialIndex. simpl.
  rewrite length_fold_markState. apply length_emptyIndex.
Qed.

Lemma candidatesAt_markState M idx state j :
  (0 < cellsX M)%Z → (0 < cellsY M)%Z →
  length idx = Z.to_nat (cellsX M * cellsY M) →
  candidatesAt (markState M idx state) j = candidatesAt idx j ++ marks M j state.
Proof.
  intros HX HY Hlen. unfold markState, marks.
  destruct (sd_centroid state) as [c|]; [|by rewrite app_nil_r].
  apply candidatesAt_fold_push. rewrite Hlen.
  by apply neighbourhood_in_range.
Qed.

Lemma candidatesAt_fold_markState M stateData idx j :
  (0 < cellsX M)%Z → (0 < cellsY M)%Z →
  length idx = Z.to_nat (cellsX M * cellsY M) →
  candidatesAt (fold_left (markState M) stateData idx) j =
  candidatesAt idx j ++ cellContent M stateData j.
Proof.
  intros HX HY. unfold cellContent.
  revert idx. induction stateData as [|d ds IH]; intros idx Hlen; simpl.
  - by rewrite app_nil_r.
  - rewrite IH by (by rewrite length_markState).
    rewrite candidatesAt_markState by done.
    by rewrite <- app_assoc.
Qed.

Lemma candidatesAt_emptyIndex M j : candidatesAt (emptyIndex M) j = [].
Proof.
  unfold candidatesAt, emptyIndex.
  destruct (replicate _ _ !! j) as [[l|]|] eqn:E; [|done..].
  apply lookup_replicate in E as [? _]. done.
Qed.

(** The candidate list of every position after a build. *)
Lemma candidatesAt_buildSpatialIndex M stateData j :
  (0 < cellsX M)%Z → (0 < cellsY M)%Z →
  candidatesAt (spatialIndex (buildSpatialIndex stateData M)) j =
  cellContent M stateData j.
Proof.
  intros HX HY. unfold buildSpatialIndex. simpl.
  rewrite candidatesAt_fold_markState by (done || apply length_emptyIndex).
  by rewrite candidatesAt_emptyIndex.
Qed.

Lemma no_empty_emptyIndex M : no_empty_cell (emptyIndex M).
Proof.
  intros i E. unfold emptyIndex in E.
  apply lookup_replicate in E as [? _]. done.
Qed.

Lemma no_empty_buildSpatialIndex M stateData :
  no_empty_cell (spatialIndex (buildSpatialIndex stateData M)).
Proof.
  unfold buildSpatialIndex. simpl.
  generalize (no_empty_emptyIndex M). generalize (emptyIndex M).
  induction stateData as [|d ds IH]; intros idx Hw; simpl; [done|].
  apply IH. unfold markState. destruct (sd_centroid d); [|done].
  by apply no_empty_fold_push.
Qed.

(** The cell itself: [null] exactly where nothing was pushed. *)
Lemma lookup_buildSpatialIndex M stateData j :
  (0 < cellsX M)%Z → (0 < cellsY M)%Z →
  j < Z.to_nat (cellsX M * cellsY M) →
  spatialIndex (buildSpatialIndex stateData M) !! j =
  Some (match cellContent M stateData j with [] => None | l => Some l end).
Proof.
  intros HX HY Hj.
  pose proof (candidatesAt_buildSpatialIndex M stateData j HX HY) as Hc.
  pose proof (no_empty_buildSpatialIndex M stateData j) as Hne.
  pose proof (length_buildSpatialIndex stateData M) as Hlen.
  unfold candidatesAt in Hc.
  destruct (spatialIndex (buildSpatialIndex stateData M) !! j) as [[l|]|] eqn:E.
  - rewrite <- Hc. destruct l; [done|done].
  - by rewrite <- Hc.
  - apply lookup_ge_None in E. lia.
Qed.

Lemma elem_of_marks M j state k :
  k ∈ marks M j state ↔
  sd_id state = k ∧
  ∃ c, sd_centroid state = Some c ∧
       j ∈ neighbourhood M (gridX M (lon c)) (gridY M (lat c)).
Proof.
  unfold marks. destruct (sd_centroid state) as [c|].
  - rewrite list_elem_of_fmap. split.
    + intros (i & -> & Hi). apply list_elem_of_filter in Hi as [-> Hi]. eauto.
    + intros (<- & c' & [= <-] & Hj). exists j. split; [done|].
      by apply list_elem_of_filter.
  - rewrite elem_of_nil. split; [done|]. by intros (_ & c & [=] & _).
Qed.

Lemma elem_of_cellContent M stateData j k :
  k ∈ cellContent M stateData j ↔
  ∃ state c, state ∈ stateData ∧ sd_id state = k ∧ sd_centroid state = Some c ∧
             j ∈ neighbourhood M (gridX M (lon c)) (gridY M (lat c)).
Proof.
  unfold cellContent. rewrite list_elem_of_bind. split.
  - intros (state & Hk & Hin). apply elem_of_marks in Hk as (? & c & ? & ?).
    by exists state, c.
  - intros (state & c & Hin & Hid & Hc & Hj). exists state. split; [|done].
    apply elem_of_marks. eauto.
Qed.

End IndexFacts.

(** ** The great-circle distance *)

Module HaversineFacts.
Import MapManager.
Local Open Scope R_scope.

Lemma atan_nonneg x : 0 <= x → 0 <= atan x.
Proof.
  intros [Hx | <-].
  - left. rewrite <- atan_0. by apply atan_increasing.
  - rewrite atan_0. lra.
Qed.

Lemma atan_pos x : 0 < x → 0 < atan x.
Proof. intros Hx. rewrite <- atan_0. by apply atan_increasing. Qed.

(** On the quadrant the haversine formula uses, [atan2] is not negative and
    vanishes only when its first argument does. *)
Lemma atan2_nonneg y x : 0 <= y → 0 <= x → 0 <= atan2 y x.
Proof.
  intros Hy Hx. unfold atan2.
  destruct (Rlt_dec 0 x) as [Hpos|Hnpos].
  - apply atan_nonneg. destruct Hy as [Hy | <-].
    + left. by apply Rdiv_lt_0_compat.
    + unfold Rdiv. lra.
  - destruct (Rlt_dec x 0); [lra|].
    destruct (Rlt_dec 0 y); [pose proof PI_RGT_0; lra|].
    destruct (Rlt_dec y 0); lra.
Qed.

Lemma atan2_zero y x : 0 <= y → 0 <= x → atan2 y x = 0 → y = 0.
Proof.
  intros Hy Hx. unfold atan2.
  destruct (Rlt_dec 0 x) as [Hpos|Hnpos].
  - intros E. destruct Hy as [Hy | <-]; [|done].
    assert (0 < y / x) as Hq by (by apply Rdiv_lt_0_compat).
    apply atan_pos in Hq. lra.
  - destruct (Rlt_dec x 0); [lra|].
    destruct (Rlt_dec 0 y); [pose proof PI_RGT_0; lra|].
    destruct (Rlt_dec y 0); lra.
Qed.

Lemma atan2_0_1 : atan2 0 1 = 0.
Proof.
  unfold atan2. destruct (Rlt_dec 0 1); [|lra].
  replace (0 / 1) with 0 by lra. apply atan_0.
Qed.

Lemma haversineDistance_nonneg lat1 lon1 lat2 lon2 :
  0 <= haversineDistance lat1 lon1 lat2 lon2.
Proof.
  unfold haversineDistance. cbv zeta.
  pose proof (atan2_nonneg _ _ (sqrt_pos (haversine_a lat1 lon1 lat2 lon2))
                (sqrt_pos (1 - haversine_a lat1 lon1 lat2 lon2))).
  lra.
Qed.

(** A point is at distance zero from itself. *)
Lemma haversineDistance_self lat1 lon1 : haversineDistance lat1 lon1 lat1 lon1 = 0.
Proof.
  unfold haversineDistance, haversine_a. cbv zeta.
  replace ((lat1 - lat1) * PI / 180 / 2) with 0 by lra.
  replace ((lon1 - lon1) * PI / 180 / 2) with 0 by lra.
  rewrite sin_0.
  replace (0 * 0 + cos (lat1 * PI / 180) * cos (lat1 * PI / 180) * 0 * 0) with 0 by lra.
  replace (1 - 0) with 1 by lra.
  rewrite sqrt_0, sqrt_1, atan2_0_1. lra.
Qed.

(** The radicand written with the angle between the two directions. *)
Lemma haversine_a_cos lat1 lon1 lat2 lon2 :
  2 * haversine_a lat1 lon1 lat2 lon2 =
  1 - sin (lat1 * PI / 180) * sin (lat2 * PI / 180)
    - cos (lat1 * PI / 180) * cos (lat2 * PI / 180) * cos ((lon2 - lon1) * PI / 180).
Proof.
  unfold haversine_a. cbv zeta.
  pose proof (cos_2a_sin ((lat2 - lat1) * PI / 180 / 2)) as E1.
  pose proof (cos_2a_sin ((lon2 - lon1) * PI / 180 / 2)) as E2.
  replace (2 * ((lat2 - lat1) * PI / 180 / 2))
    with (lat2 * PI / 180 - lat1 * PI / 180) in E1 by lra.
  replace (2 * ((lon2 - lon1) * PI / 180 / 2))
    with ((lon2 - lon1) * PI / 180) in E2 by lra.
  rewrite cos_minus in E1.
  set (s := sin ((lat2 - lat1) * PI / 180 / 2)) in *.
  set (u := sin ((lon2 - lon1) * PI / 180 / 2)) in *.
  set (k := cos ((lon2 - lon1) * PI / 180)) in *.
  set (c1 := cos (lat1 * PI / 180)) in *. set (c2 := cos (lat2 * PI / 180)) in *.
  set (s1 := sin (lat1 * PI / 180)) in *. set (s2 := sin (lat2 * PI / 180)) in *.
  nra.
Qed.

(** In exact arithmetic the radicand never leaves [[0, 1]]: both square
    roots of the formula are taken of non-negative numbers, whatever the
    four coordinates are. *)
Lemma haversine_a_range lat1 lon1 lat2 lon2 :
  0 <= haversine_a lat1 lon1 lat2 lon2 <= 1.
Proof.
  pose proof (haversine_a_cos lat1 lon1 lat2 lon2) as E.
  pose proof (COS_bound ((lon2 - lon1) * PI / 180)) as [Hk1 Hk2].
  pose proof (sin2_cos2 (lat1 * PI / 180)) as P1.
  pose proof (sin2_cos2 (lat2 * PI / 180)) as P2.
  unfold Rsqr in P1, P2.
  set (k := cos ((lon2 - lon1) * PI / 180)) in *.
  set (c1 := cos (lat1 * PI / 180)) in *. set (c2 := cos (lat2 * PI / 180)) in *.
  set (s1 := sin (lat1 * PI / 180)) in *. set (s2 := sin (lat2 * PI / 180)) in *.
  assert (∀ a b : R, 0 <= a * a + b * b) as Hsq by (intros; nra).
  assert (0 <= (1 + k) * ((s1 - s2) * (s1 - s2) + (c1 - c2) * (c1 - c2))) as A1
    by (apply Rmult_le_pos; [lra | apply Hsq]).
  assert (0 <= (1 - k) * ((s1 - s2) * (s1 - s2) + (c1 + c2) * (c1 + c2))) as A2
    by (apply Rmult_le_pos; [lra | apply Hsq]).
  assert (0 <= (1 + k) * ((s1 + s2) * (s1 + s2) + (c1 + c2) * (c1 + c2))) as A3
    by (apply Rmult_le_pos; [lra | apply Hsq]).
  assert (0 <= (1 - k) * ((s1 + s2) * (s1 + s2) + (c1 - c2) * (c1 - c2))) as A4
    by (apply Rmult_le_pos; [lra | apply Hsq]).
  clear Hsq.
  split; nra.
Qed.

Lemma haversineDistance_zero_a lat1 lon1 lat2 lon2 :
  haversineDistance lat1 lon1 lat2 lon2 = 0 → haversine_a lat1 lon1 lat2 lon2 = 0.
Proof.
  unfold haversineDistance. cbv zeta. intros E.
  pose proof (haversine_a_range lat1 lon1 lat2 lon2) as [Ha _].
  apply sqrt_eq_0; [done|].
  apply (atan2_zero _ (sqrt (1 - haversine_a lat1 lon1 lat2 lon2)));
    [apply sqrt_pos | apply sqrt_pos | lra].
Qed.

(** [sin] has no zero on [(-PI, PI)] other than [0]. *)
Lemma sin_zero_small x : - PI < x < PI → sin x = 0 → x = 0.
Proof.
  intros [Hl Hu] E.
  destruct (Rtotal_order x 0) as [Hneg | [-> | Hpos]]; [|done|].
  - assert (0 < sin (- x)) as H by (apply sin_gt_0; lra).
    rewrite sin_neg in H. lra.
  - pose proof (sin_gt_0 x Hpos Hu). lra.
Qed.

(** Two centroids with latitudes in [[-90, 90]] at distance zero have the
    same latitude; their longitudes agree too, unless the latitude is a
    pole or the longitudes are 360 degrees apart or more. *)
Lemma haversineDistance_zero_coords lat1 lon1 lat2 lon2 :
  -90 <= lat1 <= 90 → -90 <= lat2 <= 90 →
  haversineDistance lat1 lon1 lat2 lon2 = 0 →
  lat1 = lat2 ∧
  (lon1 = lon2 ∨ lat1 = 90 ∨ lat1 = -90 ∨ 360 <= lon2 - lon1 ∨ lon2 - lon1 <= -360).
Proof.
  intros H1 H2 E. apply haversineDistance_zero_a in E.
  unfold haversine_a in E. cbv zeta in E.
  pose proof PI_RGT_0 as HPI.
  assert (0 <= cos (lat1 * PI / 180)) as C1 by (apply cos_ge_0; nra).
  assert (0 <= cos (lat2 * PI / 180)) as C2 by (apply cos_ge_0; nra).
  set (s := sin ((lat2 - lat1) * PI / 180 / 2)) in *.
  set (u := sin ((lon2 - lon1) * PI / 180 / 2)) in *.
  assert (0 <= cos (lat1 * PI / 180) * cos (lat2 * PI / 180)) as C12
    by (by apply Rmult_le_pos).
  assert (0 <= u * u) as Hu by nra.
  assert (0 <= cos (lat1 * PI / 180) * cos (lat2 * PI / 180) * (u * u)) as Hcu
    by (by apply Rmult_le_pos).
  assert (s * s = 0) as Hs by nra.
  assert (s = 0) as Hs0 by nra.
  assert (lat1 = lat2) as Hlat.
  { unfold s in Hs0. apply sin_zero_small in Hs0; [nra | split; nra]. }
  split; [done|]. subst lat2.
  destruct (Rle_dec 90 lat1); [right; left; lra|].
  destruct (Rle_dec lat1 (-90)); [right; right; left; lra|].
  destruct (Rle_dec 360 (lon2 - lon1)); [right; right; right; left; lra|].
  destruct (Rle_dec (lon2 - lon1) (-360)); [right; right; right; right; lra|].
  left.
  assert (0 < cos (lat1 * PI / 180)) as C by (apply cos_gt_0; nra).
  assert (0 < cos (lat1 * PI / 180) * cos (lat1 * PI / 180)) as CC
    by (by apply Rmult_lt_0_compat).
  assert (u * u = 0) as Hu0 by nra.
  assert (u = 0) as Hu1 by nra.
  unfold u in Hu1. apply sin_zero_small in Hu1; [nra | split; nra].
Qed.


End HaversineFacts.

(** ** The candidate loop of the point locator *)

Module LocatorFacts.
Import MapManager GridNotions IndexFacts HaversineFacts.

Lemma resolves_fun M k s c s' c' :
  resolves M k s c → resolves M k s' c' → s = s' ∧ c = c'.
Proof. intros [H1 H2] [H3 H4]. split; congruence. Qed.

Lemma lookup_snoc_inv {A} (l : list A) (x y : A) j :
  (l ++ [x]) !! j = Some y → (j < length l ∧ l !! j = Some y) ∨ (j = length l ∧ y = x).
Proof.
  intros E. destruct (decide (j < length l)) as [Hlt|Hge].
  - left. by rewrite lookup_app_l in E.
  - right. rewrite lookup_app_r in E by lia.
    destruct (j - length l) as [|n] eqn:En; simpl in E; [|done].
    split; [lia | congruence].
Qed.

Lemma lookup_snoc_last {A} (l : list A) (x : A) : (l ++ [x]) !! length l = Some x.
Proof. rewrite lookup_app_r by lia. by rewrite Nat.sub_diag. Qed.

Lemma closest_so_far_snoc M qlat qlon l acc k :
  closest_so_far M qlat qlon l acc →
  closest_so_far M qlat qlon (l ++ [k]) (visit M qlat qlon acc k).
Proof.
  intros Hacc. unfold visit.
  destruct (states M !! k) as [s'|] eqn:Es;
    [destruct (centroid s') as [c'|] eqn:Ec|].
  - (* the candidate has a centroid: its distance is compared *)
    assert (resolves M k s' c') as Hres by done.
    cbv zeta. destruct acc as [[s|] [|d]]; simpl in *; try done.
    + destruct Hacc as (i & k0 & c0 & Hi & Hr0 & -> & Hmin).
      destruct (Rlt_dec (distanceTo qlat qlon c') (distanceTo qlat qlon c0)) as [Hlt|Hge].
      * exists (length l), k, c'. split; [apply lookup_snoc_last|].
        split; [done|]. split; [done|].
        intros j k' s'' c'' Hj Hr. apply lookup_snoc_inv in Hj as [[Hjl Hj] | [-> ->]].
        -- destruct (Hmin j k' s'' c'' Hj Hr) as [Hle _]. split; [|intros _]; lra.
        -- destruct (resolves_fun _ _ _ _ _ _ Hres Hr) as [_ <-]. split; [lra|lia].
      * exists i, k0, c0. split; [by apply lookup_app_l_Some|].
        split; [done|]. split; [done|].
        intros j k' s'' c'' Hj Hr. apply lookup_snoc_inv in Hj as [[Hjl Hj] | [-> ->]].
        -- by apply (Hmin j k' s'' c'').
        -- destruct (resolves_fun _ _ _ _ _ _ Hres Hr) as [_ <-].
           apply lookup_lt_Some in Hi. split; [lra|lia].
    + exists (length l), k, c'. split; [apply lookup_snoc_last|].
      split; [done|]. split; [done|].
      intros j k' s'' c'' Hj Hr. apply lookup_snoc_inv in Hj as [[Hjl Hj] | [-> ->]].
      * exfalso. eapply Hacc; [|exact Hr]. by eapply list_elem_of_lookup_2.
      * destruct (resolves_fun _ _ _ _ _ _ Hres Hr) as [_ <-]. split; [lra|lia].
  - (* no centroid: skipped *)
    destruct acc as [[s|] [|d]]; simpl in *; try done.
    + destruct Hacc as (i & k0 & c0 & Hi & Hr0 & -> & Hmin).
      exists i, k0, c0. split; [by apply lookup_app_l_Some|].
      split; [done|]. split; [done|].
      intros j k' s'' c'' Hj Hr. apply lookup_snoc_inv in Hj as [[Hjl Hj] | [-> ->]].
      * by apply (Hmin j k' s'' c'').
      * destruct Hr as [Hr1 Hr2]. congruence.
    + intros k' s'' c'' Hin Hr. apply elem_of_app in Hin as [Hin | Hin].
      * by apply (Hacc k' s'' c'').
      * apply list_elem_of_singleton in Hin as ->. destruct Hr as [Hr1 Hr2]. congruence.
  - (* not in the catalog: skipped *)
    destruct acc as [[s|] [|d]]; simpl in *; try done.
    + destruct Hacc as (i & k0 & c0 & Hi & Hr0 & -> & Hmin).
      exists i, k0, c0. split; [by apply lookup_app_l_Some|].
      split; [done|]. split; [done|].
      intros j k' s'' c'' Hj Hr. apply lookup_snoc_inv in Hj as [[Hjl Hj] | [-> ->]].
      * by apply (Hmin j k' s'' c'').
      * destruct Hr as [Hr1 Hr2]. congruence.
    + intros k' s'' c'' Hin Hr. apply elem_of_app in Hin as [Hin | Hin].
      * by apply (Hacc k' s'' c'').
      * apply list_elem_of_singleton in Hin as ->. destruct Hr as [Hr1 Hr2]. congruence.
Qed.

Lemma closest_so_far_fold M qlat qlon l :
  closest_so_far M qlat qlon l (fold_left (visit M qlat qlon) l (None, Infinity)).
Proof.
  induction l as [|k l IH] using rev_ind.
  - simpl. intros k s c Hin. by apply elem_of_nil in Hin.
  - rewrite fold_left_app. simpl. by apply closest_so_far_snoc.
Qed.

(** [findStateAtCoords] runs the loop on the candidate list of the cell it
    reads; a [null] cell, an empty array and a position outside the array
    all give [null], as the loop does on no candidate. *)
Lemma findStateAtCoords_fold M qlat qlon :
  findStateAtCoords M qlat qlon =
  fst (fold_left (visit M qlat qlon)
         (candidatesAt (spatialIndex M) (queryIndex M qlat qlon)) (None, Infinity)).
Proof.
  unfold findStateAtCoords, candidatesAt.
  destruct (spatialIndex M !! queryIndex M qlat qlon) as [[[|k l]|]|]; done.
Qed.

(** A build leaves the catalog and the grid dimensions alone. *)
Lemma states_buildSpatialIndex stateData M :
  states (buildSpatialIndex stateData M) = states M.
Proof. reflexivity. Qed.

Lemma queryIndex_buildSpatialIndex stateData M qlat qlon :
  queryIndex (buildSpatialIndex stateData M) qlat qlon = queryIndex M qlat qlon.
Proof. reflexivity. Qed.

Lemma resolves_buildSpatialIndex stateData M k s c :
  resolves (buildSpatialIndex stateData M) k s c ↔ resolves M k s c.
Proof. reflexivity. Qed.

(** The answer of a lookup, in terms of the candidates of the cell read. *)
Lemma findStateAtCoords_spec M qlat qlon :
  match findStateAtCoords M qlat qlon with
  | None =>
      ∀ k s c, k ∈ candidatesAt (spatialIndex M) (queryIndex M qlat qlon) →
               ¬ resolves M k s c
  | Some s =>
      ∃ n k c,
        candidatesAt (spatialIndex M) (queryIndex M qlat qlon) !! n = Some k ∧
        resolves M k s c ∧
        ∀ j k' s' c',
          candidatesAt (spatialIndex M) (queryIndex M qlat qlon) !! j = Some k' →
          resolves M k' s' c' →
          (distanceTo qlat qlon c <= distanceTo qlat qlon c')%R ∧
          (j < n → (distanceTo qlat qlon c < distanceTo qlat qlon c')%R)
  end.
Proof.
  rewrite findStateAtCoords_fold.
  generalize (closest_so_far_fold M qlat qlon
                (candidatesAt (spatialIndex M) (queryIndex M qlat qlon))).
  generalize (candidatesAt (spatialIndex M) (queryIndex M qlat qlon)) as cands.
  intros cands H.
  destruct (fold_left _ cands _) as [[s|] [|d]]; simpl in *; try done.
  destruct H as (i & k & c & Hi & Hr & -> & Hmin). by exists i, k, c.
Qed.

Lemma findStateAtCoords_None M qlat qlon :
  (∀ k s c, k ∈ candidatesAt (spatialIndex M) (queryIndex M qlat qlon) →
            ¬ resolves M k s c) →
  findStateAtCoords M qlat qlon = None.
Proof.
  intros Hnone. pose proof (findStateAtCoords_spec M qlat qlon) as H.
  destruct (findStateAtCoords M qlat qlon) as [s|]; [|done].
  destruct H as (n & k & c & Hn & Hr & _). exfalso.
  eapply Hnone; [|exact Hr]. by eapply list_elem_of_lookup_2.
Qed.

End LocatorFacts.

(** ** Properties of the spatial index *)

Module SpatialIndex.
Import MapManager GridNotions MapScenario IndexFacts HaversineFacts LocatorFacts.

Lemma default_dims_pos : (0 < cellsX loaded)%Z ∧ (0 < cellsY loaded)%Z.
Proof. split; reflexivity. Qed.




(** A build reads the grid dimensions of the manager and nothing else. *)
Lemma buildSpatialIndex_dims M M' stateData :
  cellsX M' = cellsX M → cellsY M' = cellsY M →
  spatialIndex (buildSpatialIndex stateData M') =
  spatialIndex (buildSpatialIndex stateData M).
Proof.
  intros EX EY. unfold buildSpatialIndex. cbn [spatialIndex set_spatialIndex].
  assert (emptyIndex M' = emptyIndex M) as -> by (unfold emptyIndex; by rewrite EX, EY).
  generalize (emptyIndex M). induction stateData as [|d ds IH]; intros idx; [done|].
  simpl. rewrite <- IH. f_equal.
  unfold markState, neighbourhood, gridX, gridY, clampX, clampY, cellIndex.
  by rewrite EX, EY.
Qed.

(** C9.  A build starts from a fresh array of [null]s and reads, besides its
    argument, only the grid dimensions: building twice in a row gives the
    manager that building once gives, and the index built from a given
    input sequence is the same, cell by cell and in the same candidate
    order, whatever index, catalog or elements the manager held before. *)
Theorem buildSpatialIndex_idempotent M stateData :
  buildSpatialIndex stateData (buildSpatialIndex stateData M) =
    buildSpatialIndex stateData M ∧
  (∀ idx, buildSpatialIndex stateData (set_spatialIndex idx M) =
          buildSpatialIndex stateData M) ∧
  (∀ M', cellsX M' = cellsX M → cellsY M' = cellsY M →
         spatialIndex (buildSpatialIndex stateData M') =
         spatialIndex (buildSpatialIndex stateData M)).
Proof.
  split; [reflexivity|]. split; [intros idx; reflexivity|].
  intros M'. apply buildSpatialIndex_dims.
Qed.

Lemma queryIndex_range M qlat qlon :
  (0 < cellsX M)%Z → (0 < cellsY M)%Z →
  queryIndex M qlat qlon < Z.to_nat (cellsX M * cellsY M).
Proof.
  intros HX HY. unfold queryIndex.
  apply cellIndex_range; [by apply clampX_range | by apply clampY_range].
Qed.



(** The loop only ever keeps a region that has a centroid. *)
Lemma findStateAtCoords_has_centroid M qlat qlon s :
  findStateAtCoords M qlat qlon = Some s → ∃ c, centroid s = Some c.
Proof.
  rewrite findStateAtCoords_fold.
  pose proof (closest_so_far_fold M qlat qlon
                (candidatesAt (spatialIndex M) (queryIndex M qlat qlon))) as H.
  destruct (fold_left _ _ _) as [[s'|] [|d]]; simpl in *; try done.
  intros [= ->]. destruct H as (i & k & c & _ & [_ Hc] & _). eauto.
Qed.

(** C8.  A catalog region [r] without a centroid is never the answer of a
    lookup.  When the index is built from records that give its identifier
    no centroid, the identifier is in no cell; and whatever the index
    holds, the candidate loop skips it, so no query returns [r]. *)
Theorem no_centroid_unreachable M stateData k r :
  (0 < cellsX M)%Z → (0 < cellsY M)%Z →
  states M !! k = Some r → centroid r = None →
  (∀ state, state ∈ stateData → sd_id state = k → sd_centroid state = None) →
  (∀ j, k ∉ candidatesAt (spatialIndex (buildSpatialIndex stateData M)) j) ∧
  (∀ qlat qlon,
     findStateAtCoords (buildSpatialIndex stateData M) qlat qlon ≠ Some r) ∧
  (∀ idx qlat qlon,
     findStateAtCoords (set_spatialIndex idx M) qlat qlon ≠ Some r).
Proof.
  intros HX HY Hk Hc Hdata. repeat split.
  - intros j Hin. rewrite candidatesAt_buildSpatialIndex in Hin by done.
    apply elem_of_cellContent in Hin as (state & c & Hin & Hid & Hsc & _).
    rewrite (Hdata state Hin Hid) in Hsc. done.
  - intros qlat qlon E. apply findStateAtCoords_has_centroid in E as [c E]. congruence.
  - intros idx qlat qlon E. apply findStateAtCoords_has_centroid in E as [c E]. congruence.
Qed.

Lemma no_centroid_unreachable_witness :
  (∀ j, "C" ∉ candidatesAt
          (spatialIndex (buildSpatialIndex (centroidList catalog) loaded)) j) ∧
  (∀ qlat qlon,
     findStateAtCoords (buildSpatialIndex (centroidList catalog) loaded) qlat qlon
     ≠ Some regionC) ∧
  (∀ idx qlat qlon,
     findStateAtCoords (set_spatialIndex idx loaded) qlat qlon ≠ Some regionC).
Proof.
  apply (no_centroid_unreachable loaded (centroidList catalog) "C" regionC);
    try reflexivity.
  intros state Hin Hid.
  unfold centroidList, catalog in Hin. rewrite !fmap_cons, fmap_nil in Hin.
  rewrite !elem_of_cons, elem_of_nil in Hin.
  destruct Hin as [-> | [-> | [-> | [-> | []]]]]; done.
Defined.

Lemma home_cell_is_candidate M stateData k c :
  (0 < cellsX M)%Z → (0 < cellsY M)%Z →
  {| sd_id := k; sd_centroid := Some c |} ∈ stateData →
  k ∈ candidatesAt (spatialIndex (buildSpatialIndex stateData M))
        (queryIndex M (lat c) (lon c)).
Proof.
  intros HX HY Hin. rewrite candidatesAt_buildSpatialIndex by done.
  apply elem_of_cellContent. eexists _, c. repeat (split; [done|]).
  apply elem_of_neighbourhood. exists 0%Z, 0%Z.
  rewrite !elem_of_offsets, !Z.add_0_r. repeat split; lia.
Qed.



Lemma Q2R_IZR z : Q2R (z # 1) = IZR z.
Proof. unfold Q2R. simpl. lra. Qed.

Lemma zero_distance_coincident c c' :
  in_range c → in_range c' →
  distanceTo (lat c) (lon c) c' = 0%R → coincident c c'.
Proof.
  intros (A1 & A2 & A3 & A4) (B1 & B2 & B3 & B4) E.
  apply Qle_Rle in A1, A2, A3, A4, B1, B2, B3, B4.
  rewrite Q2R_IZR in A1, A2, A3, A4, B1, B2, B3, B4.
  unfold distanceTo in E.
  apply haversineDistance_zero_coords in E as [Elat Elon]; [|lra..].
  split; [by apply eqR_Qeq|].
  destruct Elon as [Elon | [Ep | [Ep | [Ew | Ew]]]].
  - left. by apply eqR_Qeq.
  - right. left. apply eqR_Qeq. by rewrite Q2R_IZR.
  - right. right. left. apply eqR_Qeq. by rewrite Q2R_IZR.
  - right. right. right. left. split; apply eqR_Qeq; rewrite Q2R_IZR; lra.
  - right. right. right. right. split; apply eqR_Qeq; rewrite Q2R_IZR; lra.
Qed.



(** The end-to-end scenario of the specification, with [E] added on the
    180th meridian: the lookup at (10, 10) gives [A], at (-10, -10) gives
    [B], and at (89, 179), far from every centroid, gives [null]. *)
Theorem end_to_end_scenario :
  findStateAtCoords (buildSpatialIndex (centroidList catalog) loaded) 10 10
    = Some regionA ∧
  findStateAtCoords (buildSpatialIndex (centroidList catalog) loaded) (-10) (-10)
    = Some regionB ∧
  findStateAtCoords (buildSpatialIndex (centroidList catalog) loaded) 89 179
    = None.
Proof.
  destruct default_dims_pos as [HX HY].
  assert (states loaded !! "A" = Some regionA) as EA by reflexivity.
  assert (states loaded !! "B" = Some regionB) as EB by reflexivity.
  assert (cellContent loaded (centroidList catalog) (queryIndex loaded 10 10)
          = ["A"]) as CA by (by vm_compute).
  assert (cellContent loaded (centroidList catalog) (queryIndex loaded (-10) (-10))
          = ["B"]) as CB by (by vm_compute).
  assert (cellContent loaded (centroidList catalog) (queryIndex loaded 89 179)
          = []) as CN by (by vm_compute).
  rewrite !findStateAtCoords_fold, !queryIndex_buildSpatialIndex.
  rewrite !candidatesAt_buildSpatialIndex by assumption.
  rewrite CA, CB, CN. unfold fold_left, visit.
  rewrite !states_buildSpatialIndex, EA, EB. repeat split.
Qed.

End SpatialIndex.

(** ** Properties of the renderer *)

Module Renderer.
Import Stdlib.Floats.Floats JS SVGGlobeRenderer RenderNotions RenderScenario.

Section Facts.

Variable Math_sin : float → float.

Local Abbreviation renderToCanvas := (SVGGlobeRenderer.renderToCanvas Math_sin).
Local Abbreviation renderFallbackMap := (SVGGlobeRenderer.renderFallbackMap Math_sin).
Local Abbreviation selectRegion := (SVGGlobeRenderer.selectRegion Math_sin).
Local Abbreviation setRegionOwner := (SVGGlobeRenderer.setRegionOwner Math_sin).
Local Abbreviation selectAll := (RenderNotions.selectAll Math_sin).

Lemma hex_value_chars c : is_Some (hex_value c) → In c hex_chars.
Proof.
  destruct c as [[] [] [] [] [] [] [] []]; vm_compute;
    try (intros [? [=]]); tauto.
Qed.

Lemma parseInt16_two_digits c1 c2 :
  is_Some (hex_value c1) → is_Some (hex_value c2) →
  parseInt16 (String c1 (String c2 EmptyString)) = Some (channel_value c1 c2) ∧
  (0 ≤ channel_value c1 c2 ≤ 255)%Z.
Proof.
  intros H1%hex_value_chars H2%hex_value_chars.
  assert (forallb (λ a, forallb (λ b,
            match parseInt16 (String a (String b EmptyString)) with
            | Some v => (v =? channel_value a b)%Z &&
                        (0 <=? v)%Z && (v <=? 255)%Z
            | None => false
            end) hex_chars) hex_chars = true) as Hall by (by vm_compute).
  rewrite forallb_forall in Hall. specialize (Hall c1 H1).
  rewrite forallb_forall in Hall. specialize (Hall c2 H2).
  destruct (parseInt16 _) as [v|]; [|done].
  apply andb_prop in Hall as [Hall Hu]. apply andb_prop in Hall as [He Hl].
  apply Z.eqb_eq in He. subst v. split; [done|]. lia.
Qed.

(** On every channel value the double computation [Math.floor(r * 0.3)]
    agrees with the exact one. *)
Lemma darken_exact r :
  (0 ≤ r ≤ 255)%Z → darken (Some r) = Some (three_tenths r).
Proof.
  intros Hr.
  assert (forallb (λ n, match darken (Some (Z.of_nat n)) with
                        | Some z => (z =? three_tenths (Z.of_nat n))%Z
                        | None => false
                        end) (seq 0 256) = true) as Hall by (by vm_compute).
  rewrite forallb_forall in Hall.
  specialize (Hall (Z.to_nat r)).
  rewrite Z2Nat.id in Hall by lia.
  assert (In (Z.to_nat r) (seq 0 256)) as Hin by (apply in_seq; lia).
  specialize (Hall Hin).
  destruct (darken (Some r)) as [z|]; [|done].
  apply Z.eqb_eq in Hall. by subst.
Qed.

(** C7.  For a base colour [#] followed by six hexadecimal digits, the land
    fill is [rgb(R, G, B)] where each of [R], [G], [B] is the corresponding
    two-digit channel multiplied by 0.3 and floored; the double computation
    of the code gives exactly the floor of three tenths of the channel.  The
    base colour [#2a3a4a] gives the triple 12, 17, 22. *)
Theorem adjustColorForLand_hex c1 c2 c3 c4 c5 c6 :
  Forall (λ c, is_Some (hex_value c)) [c1; c2; c3; c4; c5; c6] →
  adjustColorForLand
    (String "#" (String c1 (String c2 (String c3 (String c4
      (String c5 (String c6 EmptyString))))))) =
  "rgb(" +:+ pretty (three_tenths (channel_value c1 c2)) +:+ ", " +:+
             pretty (three_tenths (channel_value c3 c4)) +:+ ", " +:+
             pretty (three_tenths (channel_value c5 c6)) +:+ ")" ∧
  adjustColorForLand "#2a3a4a" = "rgb(12, 17, 22)".
Proof.
  intros Hhex. split; [|by vm_compute].
  repeat match goal with
         | H : Forall _ (_ :: _) |- _ =>
             let Hc := fresh "Hc" in apply Forall_cons in H as [Hc H]
         end.
  destruct (parseInt16_two_digits c1 c2) as [E1 R1]; [done..|].
  destruct (parseInt16_two_digits c3 c4) as [E2 R2]; [done..|].
  destruct (parseInt16_two_digits c5 c6) as [E3 R3]; [done..|].
  unfold adjustColorForLand. cbn [String.substring].
  rewrite E1, E2, E3. cbv zeta.
  rewrite !darken_exact by done. reflexivity.
Qed.

Lemma adjustColorForLand_hex_witness :
  adjustColorForLand "#2a3a4a" =
  "rgb(" +:+ pretty (three_tenths (channel_value "2" "a")) +:+ ", " +:+
             pretty (three_tenths (channel_value "3" "a")) +:+ ", " +:+
             pretty (three_tenths (channel_value "4" "a")) +:+ ")" ∧
  adjustColorForLand "#2a3a4a" = "rgb(12, 17, 22)".
Proof.
  apply (adjustColorForLand_hex "2" "a" "3" "a" "4" "a").
  repeat econstructor.
Defined.

Lemma renderRegion_inputs R1 R2 r1 r2 :
  ownerColors R1 = ownerColors R2 → theme R1 = theme R2 →
  regionInputs r1 = regionInputs r2 →
  renderRegion R1 r1 = renderRegion R2 r2.
Proof.
  unfold regionInputs, renderRegion. intros -> -> [= -> -> ->]. reflexivity.
Qed.

Lemma renderRegions_inputs R1 R2 :
  ownerColors R1 = ownerColors R2 → theme R1 = theme R2 →
  ∀ rs1 rs2 : list (string * Region),
    (λ entry, regionInputs (snd entry)) <$> rs1 =
    (λ entry, regionInputs (snd entry)) <$> rs2 →
    (entry ← rs1; renderRegion R1 (snd entry)) =
    (entry ← rs2; renderRegion R2 (snd entry)).
Proof.
  intros Hc Ht rs1. induction rs1 as [|e1 rs1 IH]; intros [|e2 rs2] E;
    try discriminate E; [reflexivity|].
  rewrite !fmap_cons in E. injection E as Ep Eo Es Erest.
  cbn [mbind list_bind]. f_equal; [|by apply IH].
  apply renderRegion_inputs; [done..|]. unfold regionInputs. congruence.
Qed.

Lemma renderFallbackMap_inputs R1 R2 w h :
  theme R1 = theme R2 → renderFallbackMap R1 w h = renderFallbackMap R2 w h.
Proof. unfold renderFallbackMap. by intros ->. Qed.

Lemma renderInputs_markTexture R : renderInputs (markTexture R) = renderInputs R.
Proof. unfold markTexture. by destruct (texture R). Qed.

(** A redraw changes nothing that a redraw reads. *)
Lemma renderInputs_renderToCanvas R :
  renderInputs (state_of (renderToCanvas R)) = renderInputs R.
Proof.
  unfold renderToCanvas, state_of.
  destruct (textureCanvas R) as [canvas|]; [|done].
  destruct (svgDoc R) as [[[el|]]|]; try done.
  apply renderInputs_markTexture.
Qed.

Lemma renderToCanvas_inputs R1 R2 :
  renderInputs R1 = renderInputs R2 →
  calls_of (renderToCanvas R1) = calls_of (renderToCanvas R2) ∧
  completion_of (renderToCanvas R1) = completion_of (renderToCanvas R2).
Proof.
  unfold renderInputs. intros [= Hrs Hdoc Hcanvas Hcolors Htheme].
  unfold renderToCanvas, calls_of, completion_of.
  rewrite Hcanvas, Hdoc. destruct (textureCanvas R2) as [canvas|]; [|done].
  destruct (svgDoc R2) as [[[el|]]|]; simpl.
  - rewrite Htheme. rewrite (renderRegions_inputs R1 R2 Hcolors Htheme _ _ Hrs). done.
  - by rewrite Htheme.
  - rewrite Htheme. by rewrite (renderFallbackMap_inputs R1 R2 _ _ Htheme).
Qed.


Lemma regions_markTexture R : regions (markTexture R) = regions R.
Proof. unfold markTexture. by destruct (texture R). Qed.

Lemma regions_renderToCanvas R : regions (state_of (renderToCanvas R)) = regions R.
Proof.
  unfold renderToCanvas, state_of.
  destruct (textureCanvas R) as [canvas|]; [|done].
  destruct (svgDoc R) as [[[el|]]|]; try done.
  apply regions_markTexture.
Qed.

Lemma regions_selectRegion k R :
  regions (state_of (selectRegion k R)) =
  match Map_get k (regions R) with
  | Some _ => Map_update k (set_selected true) (deselectAll (regions R))
  | None => deselectAll (regions R)
  end.
Proof.
  unfold selectRegion. cbv zeta. cbn [regions set_regions].
  assert (Map_get k (deselectAll (regions R)) =
          set_selected false <$> Map_get k (regions R)) as E.
  { induction (regions R) as [|[k' r] rs IH]; [done|]. simpl.
    destruct (decide (k' = k)); [done | apply IH]. }
  rewrite E. destruct (Map_get k (regions R)) as [r|]; simpl; [|done].
  match goal with
  | |- context [renderToCanvas ?X] =>
      pose proof (regions_renderToCanvas X) as Hr;
      destruct (renderToCanvas X) as [[R3 calls] [u|e]]
  end; exact Hr.
Qed.

Lemma selectedCount_deselectAll rs : selectedCount (deselectAll rs) = 0.
Proof.
  unfold selectedCount, deselectAll. induction rs as [|[k r] rs IH]; [done|].
  rewrite fmap_cons, filter_cons. simpl. destruct (decide (false = true)); done.
Qed.

Lemma selectedCount_update k rs :
  selectedCount rs = 0 → selectedCount (Map_update k (set_selected true) rs) ≤ 1.
Proof.
  unfold selectedCount. induction rs as [|[k' r] rs IH]; [simpl; lia|].
  rewrite filter_cons. simpl. destruct (decide (selected r = true)); [done|].
  intros Hz. destruct (decide (k' = k)).
  - rewrite filter_cons. simpl.
    destruct (decide (true = true)); [|done]. simpl. rewrite Hz. lia.
  - rewrite filter_cons. simpl.
    destruct (decide (selected r = true)); [done|]. by apply IH.
Qed.

Lemma selectedCount_selectRegion k R :
  selectedCount (regions (state_of (selectRegion k R))) ≤ 1.
Proof.
  rewrite regions_selectRegion. destruct (Map_get k (regions R)).
  - apply selectedCount_update, selectedCount_deselectAll.
  - rewrite selectedCount_deselectAll. lia.
Qed.

Lemma Map_get_update_eq k f rs r :
  Map_get k rs = Some r → Map_get k (Map_update k f rs) = Some (f r).
Proof.
  induction rs as [|[k' r'] rs IH]; [done|]. simpl.
  destruct (decide (k' = k)) as [->|Hne]; simpl.
  - intros [= ->]. by rewrite decide_True.
  - intros E. rewrite decide_False by done. by apply IH.
Qed.

Lemma Map_get_update_ne k k' f rs :
  k ≠ k' → Map_get k' (Map_update k f rs) = Map_get k' rs.
Proof.
  intros Hne. induction rs as [|[k0 r0] rs IH]; [done|]. simpl.
  destruct (decide (k0 = k)) as [->|Hne0]; simpl.
  - by rewrite !decide_False by done.
  - destruct (decide (k0 = k')); [done | apply IH].
Qed.

Lemma Map_get_deselectAll k rs :
  Map_get k (deselectAll rs) = set_selected false <$> Map_get k rs.
Proof.
  induction rs as [|[k' r] rs IH]; [done|]. simpl.
  destruct (decide (k' = k)); [done | apply IH].
Qed.

Lemma selectedCount_app rs rs' :
  selectedCount (rs ++ rs') = selectedCount rs + selectedCount rs'.
Proof. unfold selectedCount. by rewrite filter_app, length_app. Qed.

Lemma selectedCount_replace k r rs :
  selected r = false → selectedCount rs = 0 →
  selectedCount (Map_update k (λ _, r) rs) = 0.
Proof.
  intros Hr. unfold selectedCount. induction rs as [|[k' r'] rs IH]; [done|].
  rewrite filter_cons. simpl. destruct (decide (selected r' = true)); [done|].
  intros Hz. destruct (decide (k' = k)).
  - rewrite filter_cons. simpl. rewrite Hr.
    destruct (decide (false = true)); done.
  - rewrite filter_cons. simpl.
    destruct (decide (selected r' = true)); [done|]. by apply IH.
Qed.

(** [loadSVG] stores every region unselected. *)
Lemma selectedCount_loadPaths paths rs :
  selectedCount rs = 0 → selectedCount (loadPaths paths rs) = 0.
Proof.
  unfold loadPaths. revert rs.
  induction paths as [|path paths IH]; intros rs Hz; [done|].
  simpl. apply IH. unfold addPath, Map_set. cbv zeta.
  destruct (Map_get _ rs).
  - by apply selectedCount_replace.
  - rewrite selectedCount_app, Hz. reflexivity.
Qed.

(** C5.  For two distinct identifiers [A] and [B] of the catalog,
    [selectRegion(A)] followed by [selectRegion(B)] leaves [A] unselected
    and [B] selected.  After any non-empty sequence of [selectRegion]
    calls at most one region is selected; a catalog with at most one
    selected region keeps that property under every sequence of calls; and
    the catalog [loadSVG] builds, where no region is selected, has it. *)
Theorem selection_exclusive R A B :
  A ≠ B → is_Some (Map_get A (regions R)) → is_Some (Map_get B (regions R)) →
  (selected <$> Map_get A (regions (selectAll [A; B] R)) = Some false ∧
   selected <$> Map_get B (regions (selectAll [A; B] R)) = Some true) ∧
  (∀ ids, ids ≠ [] → selectedCount (regions (selectAll ids R)) ≤ 1) ∧
  (∀ ids, selectedCount (regions R) ≤ 1 →
          selectedCount (regions (selectAll ids R)) ≤ 1) ∧
  (∀ paths ids,
     selectedCount
       (regions (selectAll ids (set_regions (loadPaths paths []) R))) ≤ 1).
Proof.
  intros Hne [rA HA] [rB HB].
  assert (∀ ids R0, selectedCount (regions R0) ≤ 1 →
                    selectedCount (regions (selectAll ids R0)) ≤ 1) as Hkeep.
  { intros ids. induction ids as [|k ids IH]; intros R0 H0; [done|].
    simpl. apply IH, selectedCount_selectRegion. }
  split; [|split; [|split]]; cycle 3.
  { intros paths ids. apply Hkeep. cbn [regions set_regions].
    rewrite selectedCount_loadPaths; [lia | reflexivity]. }
  - unfold selectAll. simpl.
    set (RA := state_of (selectRegion A R)).
    assert (is_Some (Map_get B (regions RA))) as [rB' HB'].
    { unfold RA. rewrite regions_selectRegion, HA.
      rewrite Map_get_update_ne by done. rewrite Map_get_deselectAll, HB. by eexists. }
    assert (is_Some (Map_get A (regions RA))) as [rA' HA'].
    { unfold RA. rewrite regions_selectRegion, HA.
      erewrite Map_get_update_eq by (by rewrite Map_get_deselectAll, HA).
      by eexists. }
    rewrite regions_selectRegion, HB'. split.
    + rewrite Map_get_update_ne by done. by rewrite Map_get_deselectAll, HA'.
    + erewrite Map_get_update_eq by (by rewrite Map_get_deselectAll, HB'). done.
  - intros [|k ids] Hids; [done|]. simpl.
    apply Hkeep, selectedCount_selectRegion.
  - intros ids. apply Hkeep.
Qed.

End Facts.


Lemma selection_exclusive_witness :
  (selected <$> Map_get "A" (regions (selectAll sampleSin ["A"; "B"] sampleRenderer))
     = Some false ∧
   selected <$> Map_get "B" (regions (selectAll sampleSin ["A"; "B"] sampleRenderer))
     = Some true) ∧
  (∀ ids, ids ≠ [] →
          selectedCount (regions (selectAll sampleSin ids sampleRenderer)) ≤ 1) ∧
  (∀ ids, selectedCount (regions sampleRenderer) ≤ 1 →
          selectedCount (regions (selectAll sampleSin ids sampleRenderer)) ≤ 1) ∧
  (∀ paths ids,
     selectedCount
       (regions (selectAll sampleSin ids
                   (set_regions (loadPaths paths []) sampleRenderer))) ≤ 1).
Proof.
  apply (selection_exclusive sampleSin sampleRenderer "A" "B").
  - discriminate.
  - eexists. reflexivity.
  - eexists. reflexivity.
Defined.

(** C6, at the failing input.  With [A] selected, [selectRegion("Z")] for an
    identifier [Z] that is not in the catalog makes no canvas call and
    returns [null], yet it clears the selected flag of [A]: the regions are
    not left as they were. *)
Theorem selectRegion_unknown_deselects Math_sin :
  let R := state_of (selectRegion Math_sin "A" sampleRenderer) in
  Map_get "Z" (regions R) = None ∧
  selected <$> Map_get "A" (regions R) = Some true ∧
  calls_of (selectRegion Math_sin "Z" R) = [] ∧
  completion_of (selectRegion Math_sin "Z" R) = Normal None ∧
  selected <$> Map_get "A" (regions (state_of (selectRegion Math_sin "Z" R)))
    = Some false ∧
  regions (state_of (selectRegion Math_sin "Z" R)) ≠ regions R.
Proof.
  cbv zeta.
  assert (regions (state_of (selectRegion Math_sin "A" sampleRenderer)) =
          [("A", sampleRegion "A" true); ("B", sampleRegion "B" false)]) as EA.
  { rewrite regions_selectRegion. reflexivity. }
  assert (Map_get "Z" (regions (state_of (selectRegion Math_sin "A" sampleRenderer)))
          = None) as EZ by (by rewrite EA).
  assert (regions (state_of (selectRegion Math_sin "Z"
                               (state_of (selectRegion Math_sin "A" sampleRenderer)))) =
          [("A", sampleRegion "A" false); ("B", sampleRegion "B" false)]) as EZA.
  { rewrite regions_selectRegion, EZ, EA. reflexivity. }
  split; [done|]. split; [by rewrite EA|].
  assert (∀ R, Map_get "Z" (regions R) = None →
               selectRegion Math_sin "Z" R =
               (set_regions (deselectAll (regions R)) R, [], Normal None)) as Hnone.
  { intros R E. unfold selectRegion. cbv zeta. cbn [regions set_regions].
    by rewrite Map_get_deselectAll, E. }
  rewrite (Hnone _ EZ) in *. cbn [calls_of completion_of state_of fst snd] in *.
  split; [done|]. split; [done|].
  rewrite EZA, EA. split; [reflexivity|discriminate].
Qed.

(** With an identifier that is not in the catalog, [setRegionOwner] changes
    nothing, makes no canvas call and returns normally. *)
Lemma setRegionOwner_unknown Math_sin regionId o R :
  Map_get regionId (regions R) = None →
  setRegionOwner Math_sin regionId o R = (R, [], Normal ()).
Proof. intros E. unfold setRegionOwner. by rewrite E. Qed.

End Renderer.

(** ** Mutations that name no region *)

Module Mutations.

(** The guarded mutators leave the whole state as it was when the
    identifier is unknown: [setStateColor] and [updateStateData] of the map
    manager, [setRegionOwner] of the renderer (which then also skips the
    redraw). *)
Theorem unknown_id_noop (M : MapManager.t) (R : SVGGlobeRenderer.t) Math_sin
    (k color : string) (d : gmap string string) (o : option string) :
  MapManager.states M !! k = None →
  MapManager.stateElements M !! k = None →
  SVGGlobeRenderer.Map_get k (SVGGlobeRenderer.regions R) = None →
  MapManager.setStateColor k color M = M ∧
  MapManager.updateStateData k d M = M ∧
  SVGGlobeRenderer.setRegionOwner Math_sin k o R = (R, [], JS.Normal ()).
Proof.
  intros Hs He Hr. repeat split.
  - unfold MapManager.setStateColor. by rewrite He.
  - unfold MapManager.updateStateData. by rewrite Hs.
  - by apply Renderer.setRegionOwner_unknown.
Qed.

Lemma unknown_id_noop_witness :
  MapManager.setStateColor "Z" "#ff0000" MapScenario.loaded = MapScenario.loaded ∧
  MapManager.updateStateData "Z" (<["troops" := "3"]> ∅) MapScenario.loaded
    = MapScenario.loaded ∧
  SVGGlobeRenderer.setRegionOwner RenderScenario.sampleSin "Z" (Some "player")
    RenderScenario.sampleRenderer
    = (RenderScenario.sampleRenderer, [], JS.Normal ()).
Proof.
  apply (unknown_id_noop MapScenario.loaded RenderScenario.sampleRenderer
           RenderScenario.sampleSin "Z" "#ff0000" (<["troops" := "3"]> ∅)
           (Some "player")); reflexivity.
Defined.

End Mutations.

(** ** Colours and payloads of the catalog *)

Module Colouring.
Import MapManager GridNotions CatalogNotions IndexFacts LocatorFacts.

Lemma sameRegion_refl s : sameRegion s s.
Proof. by repeat split. Qed.

Lemma sameRegion_trans s1 s2 s3 :
  sameRegion s1 s2 → sameRegion s2 s3 → sameRegion s1 s3.
Proof.
  intros (A1 & A2 & A3 & A4) (B1 & B2 & B3 & B4).
  repeat split; congruence.
Qed.

Lemma sameCatalog_refl M : sameCatalog M M.
Proof.
  repeat split. intros k. unfold sameAnswer.
  destruct (states M !! k); [apply sameRegion_refl | done].
Qed.

Lemma sameCatalog_trans M1 M2 M3 :
  sameCatalog M1 M2 → sameCatalog M2 M3 → sameCatalog M1 M3.
Proof.
  intros (A1 & A2 & A3 & A4) (B1 & B2 & B3 & B4).
  repeat split; try congruence.
  intros k. specialize (A4 k). specialize (B4 k). unfold sameAnswer in *.
  destruct (states M1 !! k), (states M2 !! k), (states M3 !! k); try done.
  by eapply sameRegion_trans.
Qed.

Lemma visit_sameCatalog M M' qlat qlon acc acc' k :
  sameCatalog M M' →
  sameAnswer (fst acc) (fst acc') → snd acc = snd acc' →
  sameAnswer (fst (visit M qlat qlon acc k)) (fst (visit M' qlat qlon acc' k)) ∧
  snd (visit M qlat qlon acc k) = snd (visit M' qlat qlon acc' k).
Proof.
  intros (_ & _ & _ & Hst) Ha Hm. specialize (Hst k). unfold visit.
  unfold sameAnswer in Hst.
  destruct (states M !! k) as [s|], (states M' !! k) as [s'|]; try done.
  pose proof Hst as (_ & _ & Hc & _). rewrite <- Hc.
  destruct (centroid s) as [c|]; [|done].
  cbv zeta. rewrite <- Hm.
  destruct (lt_minDist (distanceTo qlat qlon c) (snd acc)); done.
Qed.

Lemma fold_visit_sameCatalog M M' qlat qlon l acc acc' :
  sameCatalog M M' →
  sameAnswer (fst acc) (fst acc') → snd acc = snd acc' →
  sameAnswer (fst (fold_left (visit M qlat qlon) l acc))
             (fst (fold_left (visit M' qlat qlon) l acc')).
Proof.
  intros HM. revert acc acc'.
  induction l as [|k l IH]; intros acc acc' Ha Hm; [done|].
  simpl. destruct (visit_sameCatalog M M' qlat qlon acc acc' k HM Ha Hm).
  by apply IH.
Qed.

Lemma findStateAtCoords_sameCatalog M M' qlat qlon :
  sameCatalog M M' →
  sameAnswer (findStateAtCoords M qlat qlon) (findStateAtCoords M' qlat qlon).
Proof.
  intros HM. pose proof HM as (Hidx & HX & HY & _).
  rewrite !findStateAtCoords_fold.
  assert (queryIndex M' qlat qlon = queryIndex M qlat qlon) as ->.
  { unfold queryIndex, cellIndex, clampX, clampY, gridX, gridY. by rewrite HX, HY. }
  rewrite Hidx. by apply fold_visit_sameCatalog.
Qed.

Lemma sameCatalog_setStateColor k color M : sameCatalog M (setStateColor k color M).
Proof.
  unfold setStateColor.
  destruct (stateElements M !! k) as [el|]; [|apply sameCatalog_refl].
  destruct (states M !! k) as [s|] eqn:Es.
  - repeat split. intros k'. cbn [states set_states set_stateElements].
    destruct (decide (k = k')) as [<-|Hne].
    + rewrite lookup_insert_eq, Es. by repeat split.
    + rewrite lookup_insert_ne by done. unfold sameAnswer.
      destruct (states M !! k'); [apply sameRegion_refl | done].
  - repeat split. intros k'. cbn [states set_stateElements]. unfold sameAnswer.
    destruct (states M !! k'); [apply sameRegion_refl | done].
Qed.

Lemma sameCatalog_updateStateData k d M : sameCatalog M (updateStateData k d M).
Proof.
  unfold updateStateData.
  destruct (states M !! k) as [s|] eqn:Es; [|apply sameCatalog_refl].
  repeat split. intros k'. cbn [states set_states].
  destruct (decide (k = k')) as [<-|Hne].
  - rewrite lookup_insert_eq, Es. by repeat split.
  - rewrite lookup_insert_ne by done. unfold sameAnswer.
    destruct (states M !! k'); [apply sameRegion_refl | done].
Qed.

Lemma sameCatalog_applyNationColors nationColors stateOwnership M :
  sameCatalog M (applyNationColors nationColors stateOwnership M).
Proof.
  unfold applyNationColors. revert M.
  induction stateOwnership as [|[k n] rest IH]; intros M; [apply sameCatalog_refl|].
  simpl. eapply sameCatalog_trans; [|apply IH].
  destruct (colourOf nationColors n);
    [apply sameCatalog_setStateColor | apply sameCatalog_refl].
Qed.

(** X2.  Point location does not depend on colours or payloads: after
    [setStateColor], [updateStateData] or [applyNationColors], with any
    arguments, every lookup returns the same region as before (same
    identifier, name, centroid and owner), or [null] as before. *)
Theorem lookup_ignores_colours M qlat qlon :
  (∀ k color,
     sameAnswer (findStateAtCoords M qlat qlon)
                (findStateAtCoords (setStateColor k color M) qlat qlon)) ∧
  (∀ k d,
     sameAnswer (findStateAtCoords M qlat qlon)
                (findStateAtCoords (updateStateData k d M) qlat qlon)) ∧
  (∀ nationColors stateOwnership,
     sameAnswer (findStateAtCoords M qlat qlon)
                (findStateAtCoords
                   (applyNationColors nationColors stateOwnership M) qlat qlon)).
Proof.
  split; [|split].
  - intros k color. apply findStateAtCoords_sameCatalog, sameCatalog_setStateColor.
  - intros k d. apply findStateAtCoords_sameCatalog, sameCatalog_updateStateData.
  - intros nationColors stateOwnership.
    apply findStateAtCoords_sameCatalog, sameCatalog_applyNationColors.
Qed.

Lemma set_states_id M : set_states (states M) M = M.
Proof. by destruct M. Qed.

Lemma withColor_withColor c1 c2 s : withColor c2 (withColor c1 s) = withColor c2 s.
Proof. reflexivity. Qed.

(** What [setStateColor] leaves under every identifier. *)
Lemma states_setStateColor k color M k' :
  states (setStateColor k color M) !! k' =
  if decide (k = k' ∧ is_Some (stateElements M !! k))
  then withColor color <$> states M !! k' else states M !! k'.
Proof.
  unfold setStateColor. destruct (stateElements M !! k) as [el|] eqn:Eel.
  - destruct (states M !! k) as [s|] eqn:Es; cbn [states set_states set_stateElements].
    + destruct (decide (k = k')) as [<-|Hne].
      * rewrite lookup_insert_eq, decide_True by (split; [done | by eexists]).
        by rewrite Es.
      * rewrite lookup_insert_ne by done. rewrite decide_False; [done | by intros [? _]].
    + destruct (decide (k = k' ∧ is_Some (Some el))) as [[<- _]|]; [|done].
      by rewrite Es.
  - rewrite decide_False; [done|]. intros [_ [? [=]]].
Qed.

Lemma stateElements_setStateColor k color M k' :
  stateElements (setStateColor k color M) !! k' =
  if decide (k = k' ∧ is_Some (stateElements M !! k))
  then Some {| style_fill := color |} else stateElements M !! k'.
Proof.
  unfold setStateColor. destruct (stateElements M !! k) as [el|] eqn:Eel.
  - assert (stateElements
              (match states M !! k with
               | Some state =>
                   set_states
                     (<[k := {| id := id state; name := name state;
                                centroid := centroid state; owner := owner state;
                                color := Some color; data := data state |}]> (states M))
                     (set_stateElements
                        (<[k := {| style_fill := color |}]> (stateElements M)) M)
               | None =>
                   set_stateElements
                     (<[k := {| style_fill := color |}]> (stateElements M)) M
               end) = <[k := {| style_fill := color |}]> (stateElements M)) as ->
      by (by destruct (states M !! k)).
    destruct (decide (k = k')) as [<-|Hne].
    + rewrite lookup_insert_eq, decide_True; [done | split; [done | by eexists]].
    + rewrite lookup_insert_ne by done. rewrite decide_False; [done | by intros [? _]].
  - rewrite decide_False; [done|]. intros [_ [? [=]]].
Qed.

Lemma is_Some_stateElements_setStateColor k color M k' :
  is_Some (stateElements (setStateColor k color M) !! k') ↔
  is_Some (stateElements M !! k').
Proof.
  rewrite stateElements_setStateColor.
  destruct (decide (k = k' ∧ is_Some (stateElements M !! k))) as [[<- Hs]|]; [|done].
  split; [done | by eexists].
Qed.



End Colouring.

(** ** Highlighting: [highlightState] and [unhighlightState] *)

Module Highlights.
Import MapManager CatalogNotions Colouring.

Lemma Element_eta el : {| style_fill := style_fill el |} = el.
Proof. by destruct el. Qed.

Lemma data_original_fill_recolourAll calls H :
  data_original_fill (recolourAll calls H) = data_original_fill H.
Proof.
  unfold recolourAll. revert H. induction calls as [|c calls IH]; intros H; [done|].
  cbn [fold_left]. by rewrite IH.
Qed.

Lemma is_Some_stateElements_recolourAll calls H k :
  is_Some (stateElements (manager (recolourAll calls H)) !! k) ↔
  is_Some (stateElements (manager H) !! k).
Proof.
  unfold recolourAll. revert H. induction calls as [|c calls IH]; intros H; [done|].
  cbn [fold_left]. rewrite IH. cbn [recolour manager].
  apply is_Some_stateElements_setStateColor.
Qed.

Lemma states_unhighlightState k H :
  states (manager (unhighlightState k H)) = states (manager H).
Proof.
  unfold unhighlightState. destruct (stateElements (manager H) !! k); [|done].
  destruct (data_original_fill H !! k) as [[|a f]|]; done.
Qed.

Lemma states_highlightState k c H :
  states (manager (highlightState k c H)) = states (manager H).
Proof.
  unfold highlightState. by destruct (stateElements (manager H) !! k).
Qed.





(** X8.  [unhighlightState] restores the fill the element had when it was
    highlighted, whatever [setStateColor] did in between: after a highlight
    and any run of [setStateColor] calls, the element is back to its fill of
    before the highlight while the catalog keeps every colour the calls
    recorded. *)
Theorem unhighlight_reverts_recolouring H k c calls el
    (Hknown : stateElements (manager H) !! k = Some el) (Hfill : style_fill el ≠ "") :
  let H1 := recolourAll calls (highlightState k c H) in
  stateElements (manager (unhighlightState k H1)) !! k = Some el ∧
  states (manager (unhighlightState k H1)) = states (manager H1).
Proof.
  cbv zeta. split; [|apply states_unhighlightState].
  unfold unhighlightState.
  destruct (is_Some_stateElements_recolourAll calls (highlightState k c H) k) as [_ Hs].
  destruct Hs as [el1 Eel1].
  { unfold highlightState. rewrite Hknown.
    cbn [manager stateElements set_stateElements]. rewrite lookup_insert_eq. by eexists. }
  rewrite Eel1, data_original_fill_recolourAll.
  unfold highlightState at 1. rewrite Hknown. cbn [data_original_fill].
  rewrite lookup_insert_eq. destruct el as [f]. cbn [style_fill] in *.
  destruct f as [|a f]; [done|].
  cbn [manager stateElements set_stateElements]. by rewrite lookup_insert_eq.
Qed.

Lemma unhighlight_reverts_recolouring_witness :
  let el := {| style_fill := "#112233" |} in
  let H := {| manager := set_stateElements {[ "A" := el ]} constructor;
              data_original_fill := ∅ |} in
  let H1 := recolourAll [("A", "#ff0000"); ("B", "#00ff00")] (highlightState "A" "#2a3530" H) in
  stateElements (manager (unhighlightState "A" H1)) !! "A" = Some el ∧
  states (manager (unhighlightState "A" H1)) = states (manager H1).
Proof.
  intros el H.
  apply (unhighlight_reverts_recolouring H "A" "#2a3530"
           [("A", "#ff0000"); ("B", "#00ff00")] el).
  - done.
  - done.
Defined.

End Highlights.

(** ** How far a lookup reaches *)

Module Locality.
Import MapManager GridNotions LocalityNotions MapScenario IndexFacts HaversineFacts LocatorFacts.

Lemma scale_720 q : (q * (inject_Z 720 / 360) == 2 * q)%Q.
Proof. field. Qed.

Lemma scale_360 q : (q * (inject_Z 360 / 180) == 2 * q)%Q.
Proof. field. Qed.

Lemma floor_bounds q : (inject_Z (Qfloor q) <= q)%Q ∧ (q < inject_Z (Qfloor q) + 1)%Q.
Proof.
  split; [apply Qfloor_le|].
  pose proof (Qlt_floor q) as H. by rewrite inject_Z_plus in H.
Qed.

(** Two scaled coordinates [u], [u0] of the grid range whose clamped cells
    are at most two apart differ by at most three cells. *)
Lemma clamped_cells_close n u u0 :
  (0 < n)%Z → (0 <= u)%Q → (u <= inject_Z n)%Q → (0 <= u0)%Q → (u0 <= inject_Z n)%Q →
  (Z.abs (Z.max 0 (Z.min (n - 1) (Qfloor u)) -
          Z.max 0 (Z.min (n - 1) (Qfloor u0))) ≤ 2)%Z →
  (u - u0 <= 3)%Q.
Proof.
  intros Hn Hu0 Hun Hv0 Hvn Habs.
  destruct (floor_bounds u) as [Hg1 Hg2]. destruct (floor_bounds u0) as [Hh1 Hh2].
  assert (0 ≤ Qfloor u ≤ n)%Z as Hg.
  { split.
    - apply (Qfloor_resp_le 0 u Hu0).
    - rewrite <- (Qfloor_Z n). by apply Qfloor_resp_le. }
  assert (0 ≤ Qfloor u0 ≤ n)%Z as Hh.
  { split.
    - apply (Qfloor_resp_le 0 u0 Hv0).
    - rewrite <- (Qfloor_Z n). by apply Qfloor_resp_le. }
  set (g := Qfloor u) in *. set (h := Qfloor u0) in *.
  assert (g ≤ h + 2 ∨ n ≤ h + 3)%Z as [H|H] by lia.
  - rewrite Zle_Qle, inject_Z_plus in H. change (inject_Z 2) with (2#1)%Q in H. Lqa.lra.
  - rewrite Zle_Qle, inject_Z_plus in H. change (inject_Z 3) with (3#1)%Q in H. Lqa.lra.
Qed.

(** The clamp moves two cells no further apart. *)
Lemma clamp_apart n g d :
  (-2 ≤ d ≤ 2)%Z →
  (Z.abs (Z.max 0 (Z.min (n - 1) (g + d)) - Z.max 0 (Z.min (n - 1) g)) ≤ 2)%Z.
Proof. lia. Qed.

(** Where the answer of a lookup on a built index comes from: a record of
    the build for the answer's identifier, whose neighbourhood holds the
    cell read. *)
Lemma answer_indexed M stateData qlat qlon s :
  (0 < cellsX M)%Z → (0 < cellsY M)%Z →
  findStateAtCoords (buildSpatialIndex stateData M) qlat qlon = Some s →
  ∃ state c0 dx dy,
    state ∈ stateData ∧ states M !! sd_id state = Some s ∧ sd_centroid state = Some c0 ∧
    (-2 ≤ dx ≤ 2)%Z ∧ (-2 ≤ dy ≤ 2)%Z ∧
    clampX M (gridX M qlon) = clampX M (gridX M (lon c0) + dx) ∧
    clampY M (gridY M qlat) = clampY M (gridY M (lat c0) + dy).
Proof.
  intros HX HY Hfind.
  pose proof (findStateAtCoords_spec (buildSpatialIndex stateData M) qlat qlon) as H.
  rewrite Hfind, queryIndex_buildSpatialIndex in H.
  destruct H as (n & k & c & Hn & [Hs _] & _).
  rewrite states_buildSpatialIndex in Hs.
  apply list_elem_of_lookup_2 in Hn.
  rewrite candidatesAt_buildSpatialIndex in Hn by assumption.
  apply elem_of_cellContent in Hn as (state & c0 & Hin & <- & Hc0 & Hnb).
  apply elem_of_neighbourhood in Hnb as (dx & dy & Hdx & Hdy & Hidx).
  apply elem_of_offsets in Hdx. apply elem_of_offsets in Hdy.
  unfold queryIndex in Hidx.
  apply cellIndex_inj in Hidx as [Ex Ey];
    [|by apply clampX_range|by apply clampY_range|by apply clampX_range|by apply clampY_range].
  by exists state, c0, dx, dy.
Qed.





End Locality.

(** ** More on the great-circle distance *)

Module GreatCircle.
Import MapManager HaversineFacts.
Local Open Scope R_scope.

Lemma haversine_a_sym lat1 lon1 lat2 lon2 :
  haversine_a lat1 lon1 lat2 lon2 = haversine_a lat2 lon2 lat1 lon1.
Proof.
  unfold haversine_a.
  replace ((lat1 - lat2) * PI / 180 / 2) with (- ((lat2 - lat1) * PI / 180 / 2)) by field.
  replace ((lon1 - lon2) * PI / 180 / 2) with (- ((lon2 - lon1) * PI / 180 / 2)) by field.
  rewrite !sin_neg. ring.
Qed.

Lemma haversine_a_turn lat1 lon1 lat2 lon2 :
  haversine_a lat1 lon1 lat2 (lon2 + 360) = haversine_a lat1 lon1 lat2 lon2.
Proof.
  unfold haversine_a.
  replace ((lon2 + 360 - lon1) * PI / 180 / 2) with ((lon2 - lon1) * PI / 180 / 2 + PI)
    by field.
  rewrite neg_sin. ring.
Qed.

Lemma atan2_le_half_PI y x : 0 <= y → 0 <= x → atan2 y x <= PI / 2.
Proof.
  intros Hy Hx. unfold atan2. pose proof PI_RGT_0 as HPI.
  destruct (Rlt_dec 0 x); [pose proof (atan_bound (y / x)); lra|].
  destruct (Rlt_dec x 0); [lra|].
  destruct (Rlt_dec 0 y); [lra|].
  destruct (Rlt_dec y 0); lra.
Qed.


End GreatCircle.

(** ** Ties between equidistant regions *)

Module Ties.
Import MapManager GridNotions LocalityNotions TieScenario IndexFacts HaversineFacts LocatorFacts.

Lemma covers_neighbourhood M qlat qlon c :
  covers M qlat qlon c →
  queryIndex M qlat qlon ∈ neighbourhood M (gridX M (lon c)) (gridY M (lat c)).
Proof.
  intros [Hx Hy]. apply elem_of_neighbourhood.
  exists (gridX M qlon - gridX M (lon c))%Z, (gridY M qlat - gridY M (lat c))%Z.
  rewrite !elem_of_offsets. repeat (split; [lia|]).
  unfold queryIndex. f_equal; f_equal; lia.
Qed.

Lemma marks_all_id M j d x : x ∈ marks M j d → x = sd_id d.
Proof. intros Hx. by apply elem_of_marks in Hx as [<- _]. Qed.

Lemma cellContent_all_ids M l j x : x ∈ cellContent M l j → ∃ d, d ∈ l ∧ x = sd_id d.
Proof.
  unfold cellContent. rewrite list_elem_of_bind. intros (d & Hx & Hd).
  exists d. split; [done | by eapply marks_all_id].
Qed.



End Ties.

(** ** The region catalog, its queries and its mutators *)

Module Regions.
Import Stdlib.Floats.Floats JS SVGGlobeRenderer RenderNotions RenderScenario RegionNotions.

(** *** The insertion-ordered map *)

Lemma Map_get_update k k' f rs :
  Map_get k' (Map_update k f rs) =
  if decide (k' = k) then f <$> Map_get k rs else Map_get k' rs.
Proof.
  induction rs as [|[k0 r0] rs IH]; [by destruct (decide (k' = k))|]. simpl.
  destruct (decide (k0 = k)) as [->|Hne0]; simpl.
  - destruct (decide (k' = k)) as [->|Hne].
    + by rewrite decide_True by done.
    + by rewrite !decide_False by (by intros ->).
  - destruct (decide (k0 = k')) as [->|Hne1].
    + by rewrite decide_False by (by intros ->).
    + apply IH.
Qed.

Lemma keys_Map_update k f rs : (Map_update k f rs).*1 = rs.*1.
Proof.
  induction rs as [|[k0 r0] rs IH]; [done|]. cbn [Map_update].
  destruct (decide (k0 = k)); rewrite !fmap_cons; [done | by rewrite IH].
Qed.

Lemma length_Map_update k f rs : length (Map_update k f rs) = length rs.
Proof. by rewrite <- (length_fmap fst), keys_Map_update, length_fmap. Qed.

Lemma Map_get_None k rs : Map_get k rs = None ↔ k ∉ rs.*1.
Proof.
  induction rs as [|[k0 r0] rs IH]; simpl.
  - split; [intros _; apply not_elem_of_nil | done].
  - rewrite not_elem_of_cons. destruct (decide (k0 = k)) as [->|Hne].
    + split; [done | by intros [? _]].
    + rewrite IH. split; [by intros ?; split | by intros [_ ?]].
Qed.

Lemma Map_get_is_Some k rs : is_Some (Map_get k rs) ↔ k ∈ rs.*1.
Proof.
  rewrite <- not_eq_None_Some, Map_get_None.
  split; [apply dec_stable | by intros ? ?].
Qed.

Lemma Map_get_elem_of k r rs : Map_get k rs = Some r → (k, r) ∈ rs.
Proof.
  induction rs as [|[k0 r0] rs IH]; [done|]. simpl.
  destruct (decide (k0 = k)) as [->|Hne].
  - intros [= ->]. apply list_elem_of_here.
  - intros E. apply list_elem_of_further. by apply IH.
Qed.

Lemma elem_of_Map_get k r rs : NoDup rs.*1 → (k, r) ∈ rs → Map_get k rs = Some r.
Proof.
  induction rs as [|[k0 r0] rs IH]; [by rewrite elem_of_nil|].
  rewrite fmap_cons, NoDup_cons, elem_of_cons. simpl. intros [Hnot Hnd] [[= -> ->]|Hin].
  - by rewrite decide_True by done.
  - rewrite decide_False; [by apply IH|].
    intros ->. apply Hnot. apply list_elem_of_fmap. by exists (k, r).
Qed.

Lemma elem_of_Map_update k f rs k' r' :
  (k', r') ∈ Map_update k f rs → (k', r') ∈ rs ∨ (k' = k ∧ ∃ r, Map_get k rs = Some r ∧ r' = f r).
Proof.
  induction rs as [|[k0 r0] rs IH]; [simpl; by rewrite elem_of_nil|]. simpl.
  destruct (decide (k0 = k)) as [->|Hne]; rewrite !elem_of_cons.
  - intros [[= -> ->]|Hin]; [|left; by right].
    right. split; [done|]. by exists r0.
  - intros [[= -> ->]|Hin]; [left; by left|].
    destruct (IH Hin) as [?|(-> & r & Hr & ->)]; [left; by right|].
    right. split; [done|]. by exists r.
Qed.

(** *** [loadSVG] *)

Lemma addPath_unfold rs path :
  ∃ r, fresh_region (pathId (length rs) path) r ∧
       addPath rs path = Map_set (pathId (length rs) path) r rs.
Proof. eexists. split; [|reflexivity]. done. Qed.

Lemma keys_Map_set k r rs :
  (Map_set k r rs).*1 = if decide (k ∈ rs.*1) then rs.*1 else rs.*1 ++ [k].
Proof.
  unfold Map_set. destruct (Map_get k rs) as [r0|] eqn:E.
  - rewrite keys_Map_update, decide_True; [done|].
    apply Map_get_is_Some. by eexists.
  - apply Map_get_None in E. rewrite decide_False by done. by rewrite fmap_app.
Qed.

Lemma NoDup_Map_set k r rs : NoDup rs.*1 → NoDup (Map_set k r rs).*1.
Proof.
  intros Hnd. rewrite keys_Map_set. destruct (decide (k ∈ rs.*1)); [done|].
  apply NoDup_app. split_and!; [done| |apply NoDup_singleton].
  intros x Hx Hk. apply list_elem_of_singleton in Hk. by subst.
Qed.

Lemma elem_of_Map_set k r rs k' r' :
  (k', r') ∈ Map_set k r rs → (k', r') ∈ rs ∨ (k', r') = (k, r).
Proof.
  unfold Map_set. destruct (Map_get k rs) as [r0|].
  - intros Hin. apply elem_of_Map_update in Hin as [?|(-> & ? & _ & ->)]; [by left | by right].
  - rewrite elem_of_app, list_elem_of_singleton. tauto.
Qed.

Lemma Map_get_Map_set k r rs : Map_get k (Map_set k r rs) = Some r.
Proof.
  unfold Map_set. destruct (Map_get k rs) as [r0|] eqn:E.
  - rewrite Map_get_update, decide_True by done. by rewrite E.
  - induction rs as [|[k0 r0] rs IH]; simpl in *.
    + by rewrite decide_True by done.
    + destruct (decide (k0 = k)); [done | by apply IH].
Qed.

Lemma keys_Map_set_mono k r rs k' : k' ∈ rs.*1 → k' ∈ (Map_set k r rs).*1.
Proof.
  rewrite keys_Map_set. destruct (decide (k ∈ rs.*1)); [done|].
  rewrite elem_of_app. by left.
Qed.

Lemma length_Map_set k r rs : length (Map_set k r rs) ≤ S (length rs).
Proof.
  unfold Map_set. destruct (Map_get k rs).
  - rewrite length_Map_update. lia.
  - rewrite length_app. simpl. lia.
Qed.

Lemma loadPaths_invariant paths rs :
  NoDup rs.*1 → Forall (λ entry, fresh_region (fst entry) (snd entry)) rs →
  NoDup (loadPaths paths rs).*1 ∧
  Forall (λ entry, fresh_region (fst entry) (snd entry)) (loadPaths paths rs) ∧
  length (loadPaths paths rs) ≤ length rs + length paths ∧
  (∀ k, k ∈ rs.*1 → k ∈ (loadPaths paths rs).*1) ∧
  Forall (λ path, match truthy (attr_id path) with
                  | Some k => k ∈ (loadPaths paths rs).*1
                  | None => True
                  end) paths.
Proof.
  unfold loadPaths. revert rs.
  induction paths as [|path paths IH]; intros rs Hnd Hfresh.
  - simpl. split_and!; [done|done|lia|done|constructor].
  - cbn [fold_left]. destruct (addPath_unfold rs path) as (r & Hr & ->).
    set (k := pathId (length rs) path) in *.
    destruct (IH (Map_set k r rs)) as (I1 & I2 & I3 & I4 & I5).
    { by apply NoDup_Map_set. }
    { apply Forall_forall. intros [k' r'] Hin.
      apply elem_of_Map_set in Hin as [Hin|[= -> ->]]; [|done].
      by apply (proj1 (Forall_forall _ _) Hfresh (k', r')). }
    split_and!; [done|done| | |].
    + pose proof (length_Map_set k r rs). simpl. lia.
    + intros k' Hk'. apply I4. by apply keys_Map_set_mono.
    + constructor; [|done].
      destruct (truthy (attr_id path)) as [k0|] eqn:Hid; [|done].
      apply I4. assert (k = k0) as <-.
      { unfold k, pathId, or_else. by rewrite Hid. }
      apply Map_get_is_Some. rewrite Map_get_Map_set. by eexists.
Qed.

Lemma filter_Forall_id {A} (P : A → Prop) `{∀ x, Decision (P x)} (l : list A) :
  Forall P l → filter P l = l.
Proof.
  induction 1 as [|x l Hx Hl IH]; [done|].
  rewrite filter_cons, decide_True by done. by rewrite IH.
Qed.

(** X13.  The catalog [loadSVG] builds from the paths of a document: no
    identifier occurs twice, every region is stored under its own [id],
    unselected, owned by ['unoccupied'] and without payload, so that
    [getRegionsByOwner('unoccupied')] lists the whole catalog; there are at
    most as many regions as paths, and every non-empty [id] attribute of a
    path is an identifier of the catalog. *)
Theorem loadPaths_catalog paths R :
  NoDup (loadPaths paths []).*1 ∧
  Forall (λ entry, fresh_region (fst entry) (snd entry)) (loadPaths paths []) ∧
  getRegionsByOwner (Some "unoccupied") (set_regions (loadPaths paths []) R) =
    (loadPaths paths []).*2 ∧
  length (loadPaths paths []) ≤ length paths ∧
  Forall (λ path, match truthy (attr_id path) with
                  | Some k => is_Some (Map_get k (loadPaths paths []))
                  | None => True
                  end) paths.
Proof.
  destruct (loadPaths_invariant paths []) as (I1 & I2 & I3 & _ & I5);
    [apply NoDup_nil_2 | constructor |].
  split_and!; [done|done| |done|].
  - unfold getRegionsByOwner. cbn [regions set_regions]. f_equal.
    apply filter_Forall_id. eapply Forall_impl; [exact I2|].
    by intros [k r] (_ & Ho & _).
  - eapply Forall_impl; [exact I5|]. intros path. cbv beta.
    destruct (truthy (attr_id path)); [|done]. apply Map_get_is_Some.
Qed.

(** *** Queries *)

(** X14.  The three queries agree on a catalog without repeated
    identifiers: [getRegionsByOwner(o)] lists exactly the regions that
    [getRegion] returns for some identifier and whose owner is [o], and
    [getRegion(k)] finds a region exactly when [k] is listed by
    [getAllRegionIds]. *)
Theorem queries_agree R o r k (Hkeys : NoDup (getAllRegionIds R)) :
  (r ∈ getRegionsByOwner o R ↔ ∃ k', getRegion k' R = Some r ∧ owner r = o) ∧
  (is_Some (getRegion k R) ↔ k ∈ getAllRegionIds R).
Proof.
  unfold getRegionsByOwner, getRegion, getAllRegionIds in *. split.
  - rewrite list_elem_of_fmap. split.
    + intros ([k' r'] & -> & Hin). apply list_elem_of_filter in Hin as [Ho Hin].
      exists k'. split; [by apply elem_of_Map_get | done].
    + intros (k' & Hget & Ho). exists (k', r). split; [done|].
      apply list_elem_of_filter. split; [done | by apply Map_get_elem_of].
  - apply Map_get_is_Some.
Qed.

Lemma queries_agree_witness :
  (sampleRegion "A" false ∈ getRegionsByOwner (Some "unoccupied") sampleRenderer ↔
   ∃ k', getRegion k' sampleRenderer = Some (sampleRegion "A" false) ∧
         owner (sampleRegion "A" false) = Some "unoccupied") ∧
  (is_Some (getRegion "B" sampleRenderer) ↔ "B" ∈ getAllRegionIds sampleRenderer).
Proof.
  apply (queries_agree sampleRenderer (Some "unoccupied") (sampleRegion "A" false) "B").
  compute_done.
Defined.

Section Redraw.

Variable Math_sin : float → float.

Local Abbreviation renderToCanvas := (SVGGlobeRenderer.renderToCanvas Math_sin).
Local Abbreviation renderFallbackMap := (SVGGlobeRenderer.renderFallbackMap Math_sin).
Local Abbreviation addIceCaps := (SVGGlobeRenderer.addIceCaps Math_sin).
Local Abbreviation selectRegion := (SVGGlobeRenderer.selectRegion Math_sin).
Local Abbreviation setRegionOwner := (SVGGlobeRenderer.setRegionOwner Math_sin).
Local Abbreviation setRegionsOwner := (SVGGlobeRenderer.setRegionsOwner Math_sin).
Local Abbreviation setOwnerEach := (RegionNotions.setOwnerEach Math_sin).

(** *** What a redraw draws *)

Lemma filled_app l1 l2 : filled (l1 ++ l2) = filled l1 ++ filled l2.
Proof. apply omap_app. Qed.

Lemma stroked_app l1 l2 : stroked (l1 ++ l2) = stroked l1 ++ stroked l2.
Proof. apply omap_app. Qed.

Lemma filled_LineTo {A} (f g : A → float) l : filled ((λ x, LineTo (f x) (g x)) <$> l) = [].
Proof. induction l; [done | by simpl]. Qed.

Lemma stroked_LineTo {A} (f g : A → float) l : stroked ((λ x, LineTo (f x) (g x)) <$> l) = [].
Proof. induction l; [done | by simpl]. Qed.

Lemma filled_addIceCaps w h : filled (addIceCaps w h) = [].
Proof.
  unfold SVGGlobeRenderer.addIceCaps. cbv zeta.
  by rewrite !filled_app, filled_LineTo.
Qed.

Lemma stroked_addIceCaps w h : stroked (addIceCaps w h) = [].
Proof.
  unfold SVGGlobeRenderer.addIceCaps. cbv zeta.
  by rewrite !stroked_app, stroked_LineTo.
Qed.

Lemma filled_addGridLines w h : filled (addGridLines w h) = [].
Proof. reflexivity. Qed.

Lemma stroked_addGridLines w h : stroked (addGridLines w h) = [].
Proof. reflexivity. Qed.

Lemma filled_renderFallbackMap R w h : filled (renderFallbackMap R w h) = [].
Proof.
  unfold SVGGlobeRenderer.renderFallbackMap. cbv zeta.
  rewrite !filled_app, filled_addIceCaps, filled_addGridLines. reflexivity.
Qed.

Lemma stroked_renderFallbackMap R w h : stroked (renderFallbackMap R w h) = [].
Proof.
  unfold SVGGlobeRenderer.renderFallbackMap. cbv zeta.
  rewrite !stroked_app, stroked_addIceCaps, stroked_addGridLines. reflexivity.
Qed.

Lemma drawn_regions R rs :
  filled (entry ← rs; renderRegion R (snd entry)) = drawn rs ∧
  stroked (entry ← rs; renderRegion R (snd entry)) = drawn rs.
Proof.
  induction rs as [|[k r] rs [IH1 IH2]]; [done|].
  cbn [mbind list_bind snd]. rewrite filled_app, stroked_app, IH1, IH2.
  change (drawn ((k, r) :: rs))
    with (match truthy (pathData r) with Some d => d :: drawn rs | None => drawn rs end).
  unfold renderRegion. destruct (truthy (pathData r)) as [d|]; done.
Qed.


(** *** Mutators *)

Lemma drawnState_renderToCanvas R : drawnState (state_of (renderToCanvas R)) = drawnState R.
Proof.
  unfold SVGGlobeRenderer.renderToCanvas, state_of.
  destruct (textureCanvas R) as [canvas|]; [|done].
  destruct (svgDoc R) as [[[el|]]|]; try done.
  cbn [fst]. unfold markTexture. by destruct (texture R).
Qed.

Lemma drawnState_redraw R1 R2 :
  drawnState R1 = drawnState R2 →
  calls_of (renderToCanvas R1) = calls_of (renderToCanvas R2) ∧
  completion_of (renderToCanvas R1) = completion_of (renderToCanvas R2).
Proof.
  intros [= E1 E2 E3 E4 E5]. apply Renderer.renderToCanvas_inputs.
  unfold renderInputs. by rewrite E1, E2, E3, E4, E5.
Qed.

(** The canvas shows the state a redraw leaves. *)
Lemma redraw_current R :
  calls_of (renderToCanvas (state_of (renderToCanvas R))) = calls_of (renderToCanvas R).
Proof. apply drawnState_redraw, drawnState_renderToCanvas. Qed.

Lemma Map_update_unknown k f rs : Map_get k rs = None → Map_update k f rs = rs.
Proof.
  induction rs as [|[k0 r0] rs IH]; [done|]. simpl.
  destruct (decide (k0 = k)); [done|]. intros E. by rewrite IH.
Qed.

Lemma drawnState_setRegionOwner k o R :
  drawnState (state_of (setRegionOwner k o R)) =
  drawnState (set_regions (Map_update k (set_owner o) (regions R)) R).
Proof.
  unfold SVGGlobeRenderer.setRegionOwner.
  destruct (Map_get k (regions R)) as [r|] eqn:E.
  - apply drawnState_renderToCanvas.
  - unfold state_of, drawnState. cbn [fst regions set_regions svgDoc textureCanvas
                                        ownerColors theme].
    by rewrite Map_update_unknown.
Qed.

(** X16.  [setRegionOwner] on a known identifier changes the owner of that
    region and nothing else in the catalog: the other regions, the order
    and the identifiers stay; afterwards the region is listed by
    [getRegionsByOwner] for the new owner and for no other, and the canvas
    calls made are those of a redraw of the state the call leaves. *)
Theorem setRegionOwner_effect R k o r (Hk : getRegion k R = Some r) :
  let R' := state_of (setRegionOwner k o R) in
  (∀ k', getRegion k' R' = if decide (k' = k) then Some (set_owner o r) else getRegion k' R) ∧
  getAllRegionIds R' = getAllRegionIds R ∧
  (∀ o', set_owner o r ∈ getRegionsByOwner o' R' ↔ o' = o) ∧
  calls_of (setRegionOwner k o R) = calls_of (renderToCanvas R').
Proof.
  cbv zeta. unfold getRegion, getAllRegionIds, getRegionsByOwner in *.
  assert (regions (state_of (setRegionOwner k o R)) =
          Map_update k (set_owner o) (regions R)) as Ers.
  { unfold SVGGlobeRenderer.setRegionOwner. rewrite Hk.
    by rewrite Renderer.regions_renderToCanvas. }
  rewrite Ers. split_and!.
  - intros k'. rewrite Map_get_update. by rewrite Hk.
  - apply keys_Map_update.
  - intros o'. rewrite list_elem_of_fmap. split.
    + intros ([k' r'] & Er & Hin). apply list_elem_of_filter in Hin as [Ho _].
      cbn [snd] in *. subst r'. by rewrite <- Ho.
    + intros ->. exists (k, set_owner o r). split; [done|].
      apply list_elem_of_filter. split; [done|].
      apply Map_get_elem_of. rewrite Map_get_update, decide_True by done. by rewrite Hk.
  - unfold SVGGlobeRenderer.setRegionOwner. rewrite Hk. symmetry. apply redraw_current.
Qed.

Lemma drawnState_setOwnerEach ks o R :
  drawnState (setOwnerEach ks o R) =
  drawnState (set_regions
                (fold_left (λ rs k, Map_update k (set_owner o) rs) ks (regions R)) R).
Proof.
  unfold RegionNotions.setOwnerEach. revert R.
  induction ks as [|k ks IH]; intros R; [done|].
  cbn [fold_left]. rewrite IH.
  pose proof (drawnState_setRegionOwner k o R) as [= E1 E2 E3 E4 E5].
  unfold drawnState. cbn [regions set_regions svgDoc textureCanvas ownerColors theme] in *.
  by rewrite E1, E2, E3, E4, E5.
Qed.

(** X17.  [setRegionsOwner(ids, o)] leaves the catalog that the calls
    [setRegionOwner(k, o)], for [k] in [ids] in order, leave, and makes
    once the canvas calls of a redraw of that catalog, whether or not any
    identifier is known. *)
Theorem setRegionsOwner_sequential ks o R :
  regions (state_of (setRegionsOwner ks o R)) = regions (setOwnerEach ks o R) ∧
  calls_of (setRegionsOwner ks o R) = calls_of (renderToCanvas (setOwnerEach ks o R)) ∧
  completion_of (setRegionsOwner ks o R) =
    completion_of (renderToCanvas (setOwnerEach ks o R)).
Proof.
  pose proof (drawnState_setOwnerEach ks o R) as E.
  unfold SVGGlobeRenderer.setRegionsOwner. split_and!.
  - rewrite Renderer.regions_renderToCanvas. by injection E as -> _ _ _ _.
  - symmetry. by apply drawnState_redraw.
  - symmetry. by apply drawnState_redraw.
Qed.

Lemma keys_deselectAll rs : (deselectAll rs).*1 = rs.*1.
Proof. unfold deselectAll. rewrite <- list_fmap_compose. by apply list_fmap_ext. Qed.

Lemma select_again k rs :
  Map_update k (set_selected true) (deselectAll (Map_update k (set_selected true) (deselectAll rs)))
  = Map_update k (set_selected true) (deselectAll rs).
Proof.
  induction rs as [|[k0 r0] rs IH]; [done|].
  cbn [deselectAll fmap list_fmap fst snd Map_update].
  destruct (decide (k0 = k)) as [->|Hne].
  - cbn [deselectAll fmap list_fmap fst snd Map_update].
    rewrite decide_True by done. f_equal.
    fold (deselectAll (deselectAll rs)). unfold deselectAll.
    rewrite <- list_fmap_compose. by apply list_fmap_ext.
  - cbn [deselectAll fmap list_fmap fst snd Map_update].
    rewrite decide_False by done. f_equal. apply IH.
Qed.

Lemma deselect_again rs : deselectAll (deselectAll rs) = deselectAll rs.
Proof. unfold deselectAll. rewrite <- list_fmap_compose. by apply list_fmap_ext. Qed.

(** X18.  [selectRegion(k)] changes selected flags only: every region
    keeps its place and its other fields, the region [k] ends selected and
    every other one unselected; when it returns, what it returns is the
    stored region [k], or [null] for an unknown identifier; selecting the
    same identifier again changes nothing; and for a known identifier the
    canvas calls made are those of a redraw of the state the call leaves. *)
Theorem selectRegion_effect R k k' :
  getRegion k' (state_of (selectRegion k R)) =
    set_selected (bool_decide (k' = k)) <$> getRegion k' R ∧
  getAllRegionIds (state_of (selectRegion k R)) = getAllRegionIds R ∧
  match completion_of (selectRegion k R) with
  | Normal v => v = getRegion k (state_of (selectRegion k R))
  | Throw _ => True
  end ∧
  regions (state_of (selectRegion k (state_of (selectRegion k R)))) =
    regions (state_of (selectRegion k R)) ∧
  calls_of (selectRegion k R) =
    match getRegion k R with
    | Some _ => calls_of (renderToCanvas (state_of (selectRegion k R)))
    | None => []
    end.
Proof.
  unfold getRegion, getAllRegionIds. rewrite !Renderer.regions_selectRegion.
  split_and!.
  - destruct (Map_get k (regions R)) as [r|] eqn:Ek.
    + rewrite Map_get_update, !Renderer.Map_get_deselectAll.
      destruct (decide (k' = k)) as [->|Hne].
      * rewrite bool_decide_true by done. by rewrite Ek.
      * by rewrite bool_decide_false by done.
    + rewrite Renderer.Map_get_deselectAll.
      destruct (decide (k' = k)) as [->|Hne].
      * by rewrite Ek.
      * by rewrite bool_decide_false by done.
  - destruct (Map_get k (regions R)); by rewrite ?keys_Map_update, keys_deselectAll.
  - unfold SVGGlobeRenderer.selectRegion. cbv zeta. cbn [regions set_regions].
    rewrite Renderer.Map_get_deselectAll.
    destruct (Map_get k (regions R)) as [r|] eqn:Ek; cbn [fmap option_fmap option_map].
    + destruct (renderToCanvas _) as [[R3 calls] [u|e]]; cbn [completion_of snd]; [|done].
      rewrite Map_get_update, decide_True by done.
      by rewrite Renderer.Map_get_deselectAll, Ek.
    + cbn [completion_of snd]. by rewrite Renderer.Map_get_deselectAll, Ek.
  - destruct (Map_get k (regions R)) as [r|] eqn:Ek.
    + rewrite Map_get_update, decide_True by done.
      rewrite Renderer.Map_get_deselectAll, Ek. cbn [fmap option_fmap option_map].
      apply select_again.
    + rewrite Renderer.Map_get_deselectAll, Ek. apply deselect_again.
  - unfold SVGGlobeRenderer.selectRegion. cbv zeta. cbn [regions set_regions].
    rewrite Renderer.Map_get_deselectAll.
    destruct (Map_get k (regions R)) as [r|] eqn:Ek; cbn [fmap option_fmap option_map];
      [|done].
    pose proof (redraw_current
                  (set_regions (Map_update k (set_selected true) (deselectAll (regions R)))
                     (set_regions (deselectAll (regions R)) R))) as Hcur.
    set (res := renderToCanvas
                  (set_regions (Map_update k (set_selected true) (deselectAll (regions R)))
                     (set_regions (deselectAll (regions R)) R))) in *.
    destruct res as [[R3 calls] [u|e]]; exact (eq_sym Hcur).
Qed.

End Redraw.

Lemma setRegionOwner_effect_witness :
  let R' := state_of (setRegionOwner sampleSin "A" (Some "player") sampleRenderer) in
  (∀ k', getRegion k' R' =
         if decide (k' = "A") then Some (set_owner (Some "player") (sampleRegion "A" false))
         else getRegion k' sampleRenderer) ∧
  getAllRegionIds R' = getAllRegionIds sampleRenderer ∧
  (∀ o', set_owner (Some "player") (sampleRegion "A" false) ∈ getRegionsByOwner o' R'
         ↔ o' = Some "player") ∧
  calls_of (setRegionOwner sampleSin "A" (Some "player") sampleRenderer) =
    calls_of (renderToCanvas sampleSin R').
Proof.
  apply (setRegionOwner_effect sampleSin sampleRenderer "A" (Some "player")
           (sampleRegion "A" false)).
  reflexivity.
Defined.

(** *** Colours that are not six hexadecimal digits *)

Lemma substring_short n m s : String.length s ≤ n → String.substring n m s = "".
Proof.
  revert n. induction s as [|a s IH]; intros n Hn.
  - by destruct n, m.
  - destruct n as [|n]; simpl in *; [lia|]. apply IH. lia.
Qed.

Lemma substring_app n m s rest :
  n + m ≤ String.length s → String.substring n m (s +:+ rest) = String.substring n m s.
Proof.
  revert n m. induction s as [|a s IH]; intros n m Hn; simpl in Hn.
  - assert (n = 0) as -> by lia. assert (m = 0) as -> by lia. by destruct rest.
  - destruct n as [|n]; simpl.
    + destruct m as [|m]; [done|]. f_equal. apply (IH 0 m). lia.
    + apply IH. lia.
Qed.

(** X19.  [adjustColorForLand] reads the six characters after the first
    and nothing else: whatever follows a seven-character colour (an alpha
    channel, say) is ignored, and a colour of five characters or fewer,
    such as the three-digit shorthand, gives [NaN] for the blue channel. *)
Theorem adjustColorForLand_reads_six_digits hexColor rest :
  (String.length hexColor = 7 →
   adjustColorForLand (hexColor +:+ rest) = adjustColorForLand hexColor) ∧
  (String.length hexColor ≤ 5 →
   adjustColorForLand hexColor =
     "rgb(" +:+ toString (darken (parseInt16 (String.substring 1 2 hexColor))) +:+ ", "
            +:+ toString (darken (parseInt16 (String.substring 3 2 hexColor))) +:+ ", NaN)").
Proof.
  unfold adjustColorForLand. cbv zeta. split; intros Hlen.
  - by rewrite !substring_app by lia.
  - by rewrite (substring_short 5 2) by lia.
Qed.

Lemma adjustColorForLand_reads_six_digits_witness :
  adjustColorForLand ("#2a3a4a" +:+ "ff") = adjustColorForLand "#2a3a4a" ∧
  adjustColorForLand "#abc" =
    "rgb(" +:+ toString (darken (parseInt16 (String.substring 1 2 "#abc"))) +:+ ", "
           +:+ toString (darken (parseInt16 (String.substring 3 2 "#abc"))) +:+ ", NaN)".
Proof.
  split.
  - apply (adjustColorForLand_reads_six_digits "#2a3a4a" "ff"). reflexivity.
  - apply (adjustColorForLand_reads_six_digits "#abc" ""). simpl. lia.
Defined.

End Regions.
